(** * Avoid Flood in The City: the greedy planner of
    [pythonLeetCode/Avoid_Flood_in_The_City.py], embedded and verified.

    The Python method [Solution.avoidFlood] scans the rain schedule once,
    keeping a dictionary of full lakes and a sorted list of unused dry days.
    It is embedded below statement by statement.  Every Python operation that
    can raise ([l[i]], [l[i] = v], [l.pop(i)], [d[k]], [del d[k]]) is modelled
    with its exception, so that "the function does not raise" is a theorem
    about the model and not an assumption of it. *)

From stdpp Require Import base option list gmap sorting.

Local Open Scope Z_scope.

(** ** Results of Python computations *)

Inductive pyexn : Type := IndexError | KeyError.

(** A computation yields a value, raises, or exhausts the fuel of the
    binary search (the only loop whose bound is not syntactic). *)
Inductive res (A : Type) : Type :=
  | Val (a : A)
  | Exn (e : pyexn)
  | OutOfFuel.
Arguments Val {A} a.
Arguments Exn {A} e.
Arguments OutOfFuel {A}.

#[global] Instance res_ret : MRet res := fun A a => Val a.
#[global] Instance res_bind : MBind res := fun A B f m =>
  match m with
  | Val a => f a
  | Exn e => Exn e
  | OutOfFuel => OutOfFuel
  end.

(** ** Python list and dictionary primitives *)

Module Py.

(** [l[i]] for [0 <= i]. *)
Definition getitem {A} (l : list A) (i : nat) : res A :=
  match l !! i with
  | Some x => Val x
  | None => Exn IndexError
  end.

(** [l[i] = v] for [0 <= i]. *)
Definition setitem {A} (l : list A) (i : nat) (v : A) : res (list A) :=
  if decide (i < length l)%nat then Val (<[i:=v]> l) else Exn IndexError.

(** [l.pop(i)] for [0 <= i], keeping only the remaining list. *)
Definition pop {A} (l : list A) (i : nat) : res (list A) :=
  if decide (i < length l)%nat then Val (delete i l) else Exn IndexError.

(** [d[k]]. *)
Definition dict_get (d : gmap Z nat) (k : Z) : res nat :=
  match d !! k with
  | Some v => Val v
  | None => Exn KeyError
  end.

(** [del d[k]]. *)
Definition dict_del (d : gmap Z nat) (k : Z) : res (gmap Z nat) :=
  match d !! k with
  | Some _ => Val (delete k d)
  | None => Exn KeyError
  end.

(** [k in d]. *)
Definition dict_mem (d : gmap Z nat) (k : Z) : bool :=
  bool_decide (is_Some (d !! k)).

(** The loop of [bisect.bisect_right(a, x)]:
<<
    while lo < hi:
        mid = (lo + hi) // 2
        if x < a[mid]: hi = mid
        else: lo = mid + 1
    return lo
>> *)
Fixpoint bisect_loop (fuel : nat) (a : list nat) (x : nat) (lo hi : nat)
  : res nat :=
  if decide (lo < hi)%nat then
    match fuel with
    | O => OutOfFuel
    | S fuel' =>
        let mid := ((lo + hi) / 2)%nat in
        am ← getitem a mid;
        if decide (x < am)%nat
        then bisect_loop fuel' a x lo mid
        else bisect_loop fuel' a x (S mid) hi
    end
  else Val lo.

Definition bisect_right (a : list nat) (x : nat) : res nat :=
  bisect_loop (length a) a x 0 (length a).

End Py.

(** ** The planner *)

(** The three local working structures of [avoidFlood]. *)
Record state : Type := State {
  result : list Z;
  full_lakes : gmap Z nat;
  dry_days : list nat
}.

(** What one iteration of the scan does to the control flow: fall through
    to the next day, or leave the function with [return r]. *)
Inductive flow : Type :=
  | Next (st : state)
  | Return (r : list Z).

(** Lines 17-35: the rescue of a lake that is already full. *)
Definition rescue (lake : Z) (st : state) : res flow :=
  if Py.dict_mem (full_lakes st) lake then
    last_full_day ← Py.dict_get (full_lakes st) lake;
    idx ← Py.bisect_right (dry_days st) last_full_day;
    if decide (idx = length (dry_days st)) then Val (Return [])
    else
      dry_day ← Py.getitem (dry_days st) idx;
      result' ← Py.setitem (result st) dry_day lake;
      dry_days' ← Py.pop (dry_days st) idx;
      full_lakes' ← Py.dict_del (full_lakes st) lake;
      Val (Next (State result' full_lakes' dry_days'))
  else Val (Next st).

(** Lines 12-38: the body of [for i in range(n)]. *)
Definition body (rains : list Z) (i : nat) (st : state) : res flow :=
  r ← Py.getitem rains i;
  if decide (r = 0) then
    Val (Next (State (result st) (full_lakes st) (dry_days st ++ [i])))
  else
    let lake := r in
    fl ← rescue lake st;
    match fl with
    | Return r => Val (Return r)
    | Next st1 =>
        Val (Next (State (result st1) (<[lake := i]> (full_lakes st1))
                         (dry_days st1)))
    end.

(** [for i in idxs: body], stopping at the first [return]. *)
Fixpoint for_range (rains : list Z) (idxs : list nat) (st : state) : res flow :=
  match idxs with
  | [] => Val (Next st)
  | i :: idxs' =>
      fl ← body rains i st;
      match fl with
      | Return r => Val (Return r)
      | Next st' => for_range rains idxs' st'
      end
  end.

(** Lines 41-42: [for day in dry_days: result[day] = 1]. *)
Fixpoint fill (days : list nat) (res0 : list Z) : res (list Z) :=
  match days with
  | [] => Val res0
  | day :: days' => res1 ← Py.setitem res0 day 1; fill days' res1
  end.

(** Lines 6-9: the initial working structures. *)
Definition init (rains : list Z) : state :=
  State (replicate (length rains) (-1)) ∅ [].

(** Lines 11-39: the whole scan. *)
Definition scan (rains : list Z) : res flow :=
  for_range rains (seq 0 (length rains)) (init rains).

Definition avoidFlood (rains : list Z) : res (list Z) :=
  fl ← scan rains;
  match fl with
  | Return r => Val r
  | Next st => fill (dry_days st) (result st)
  end.

(** The state of the scan when the first [k] days have been processed. *)
Definition scan_upto (rains : list Z) (k : nat) : res flow :=
  for_range rains (seq 0 k) (init rains).

(** Day [i] of the scan takes dry day [d] out of the pool. *)
Definition consumed_at (rains : list Z) (i d : nat) : Prop :=
  ∃ st st', scan_upto rains i = Val (Next st) ∧
            body rains i st = Val (Next st') ∧
            d ∈ dry_days st ∧ d ∉ dry_days st'.

(** The scan is stuck at day [i] in state [st]: rain falls on a lake that is
    full since day [d] and the pool holds no dry day after [d]. *)
Definition stuck (rains : list Z) (i : nat) (st : state) : Prop :=
  ∃ L d, rains !! i = Some L ∧ L ≠ 0 ∧ full_lakes st !! L = Some d ∧
         ∀ x, x ∈ dry_days st → (x ≤ d)%nat.

(** ** Replaying a plan

    The judge of a plan, written from the problem statement and not from the
    planner: [full] is the set of lakes that are full.  On a dry day the lake
    named by the plan is emptied (a plan that has run out empties nothing);
    on a rainy day the lake floods if it is full, and becomes full
    otherwise.  [replay] answers [true] when no lake floods. *)
Fixpoint replay (rains plan : list Z) (full : gset Z) : bool :=
  match rains with
  | [] => true
  | r :: rains' =>
      if decide (r = 0) then
        replay rains' (tail plan)
          (match plan with a :: _ => full ∖ {[a]} | [] => full end)
      else if decide (r ∈ full) then false
      else replay rains' (tail plan) ({[r]} ∪ full)
  end.

(** ** The invariant of the scan after [k] days *)

Record Inv (rains : list Z) (k : nat) (st : state) : Prop := {
  inv_len : length (result st) = length rains;
  inv_sorted : StronglySorted lt (dry_days st);
  inv_pool : ∀ d, d ∈ dry_days st →
    (d < k)%nat ∧ rains !! d = Some 0 ∧ result st !! d = Some (-1);
  inv_full : ∀ L j, full_lakes st !! L = Some j →
    (j < k)%nat ∧ rains !! j = Some L ∧ L ≠ 0;
  inv_last : ∀ j L, (j < k)%nat → rains !! j = Some L → L ≠ 0 →
    ∃ j', full_lakes st !! L = Some j' ∧ (j ≤ j')%nat;
  inv_safe : ∀ j i L, (j < i < k)%nat →
    rains !! j = Some L → rains !! i = Some L → L ≠ 0 →
    ∃ d, (j < d < i)%nat ∧ rains !! d = Some 0 ∧
         result st !! d = Some L ∧ d ∉ dry_days st;
  inv_rainy : ∀ i L, rains !! i = Some L → L ≠ 0 →
    result st !! i = Some (-1);
  inv_future : ∀ i, (k ≤ i < length rains)%nat → result st !! i = Some (-1)
}.

(** What [replay] knows about a full lake after [k] days: it was rained on
    at some day [j < k] and no dry day since has emptied it. *)
Definition still_full (rains plan : list Z) (k : nat) (L : Z) : Prop :=
  ∃ j, (j < k)%nat ∧ rains !! j = Some L ∧ L ≠ 0 ∧
       ∀ d, (j < d < k)%nat → rains !! d = Some 0 → plan !! d ≠ Some L.

(** The conclusion of [inv_safe] for a finished plan. *)
Definition rescued_between (rains plan : list Z) : Prop :=
  ∀ j i L, (j < i)%nat → rains !! j = Some L → rains !! i = Some L → L ≠ 0 →
    ∃ d, (j < d < i)%nat ∧ rains !! d = Some 0 ∧ plan !! d = Some L.

(** A schedule of emptyings given as a function of the day: between any two
    rains on the same lake some dry day empties that lake. *)
Definition rescues (rains : list Z) (P : nat → Z) : Prop :=
  ∀ j i L, (j < i)%nat → rains !! j = Some L → rains !! i = Some L → L ≠ 0 →
    ∃ d, (j < d < i)%nat ∧ rains !! d = Some 0 ∧ P d = L.

(** The schedule [P] agrees with the scan on the days the scan has used. *)
Definition agrees (rains : list Z) (P : nat → Z) (k : nat) (st : state)
  : Prop :=
  ∀ d, (d < k)%nat → rains !! d = Some 0 → d ∉ dry_days st →
    result st !! d = Some (P d).

(** Day [i] is dry. *)
Definition is_dry (rains : list Z) (i : nat) : bool :=
  bool_decide (rains !! i = Some 0).

(** Day [i] rains on a lake that an earlier day has rained on. *)
Definition is_repeat (rains : list Z) (i : nat) : bool :=
  match rains !! i with
  | Some L => bool_decide (L ≠ 0 ∧ L ∈ take i rains)
  | None => false
  end.

(** The number of days before [k] that satisfy [f]. *)
Fixpoint count_days (f : nat → bool) (k : nat) : nat :=
  match k with
  | O => O
  | S k' => (count_days f k' + if f k' then 1 else 0)%nat
  end.

(** The schedule [avoidFlood] returns when no lake rains twice. *)
Definition trivial_plan (rains : list Z) : list Z :=
  (λ x, if decide (x = 0) then 1 else -1) <$> rains.

Ltac unbind := unfold mbind, res_bind, mret, res_ret in *.

(** ** Sorted pools *)

Section sorted_pool.
Implicit Types l : list nat.

Lemma sorted_lookup_lt l p q x y :
  StronglySorted lt l → l !! p = Some x → l !! q = Some y →
  (p < q)%nat → (x < y)%nat.
Proof.
  intros Hs. revert p q. induction Hs as [|a l Hs IH Hall]; intros p q Hp Hq Hlt.
  - rewrite lookup_nil in Hp. discriminate.
  - destruct q as [|q]; [lia|]. simpl in Hq. destruct p as [|p]; simpl in Hp.
    + injection Hp as <-. rewrite Forall_forall in Hall.
      apply Hall. eapply list_elem_of_lookup_2, Hq.
    + eapply IH; eauto. lia.
Qed.

Lemma sorted_lookup_inj l p q x :
  StronglySorted lt l → l !! p = Some x → l !! q = Some x → p = q.
Proof.
  intros Hs Hp Hq. destruct (Nat.lt_trichotomy p q) as [H|[H|H]]; [|done|].
  - pose proof (sorted_lookup_lt _ _ _ _ _ Hs Hp Hq H). lia.
  - pose proof (sorted_lookup_lt _ _ _ _ _ Hs Hq Hp H). lia.
Qed.

Lemma sorted_delete l p :
  StronglySorted lt l → StronglySorted lt (delete p l).
Proof.
  rewrite delete_take_drop. intros Hs.
  rewrite <- (take_drop p l) in Hs at 1.
  apply StronglySorted_app in Hs as (Hlr & Hl & Hr).
  apply StronglySorted_app. split_and!; [|done|].
  - intros x1 x2 H1 H2. apply Hlr; [done|].
    rewrite <- (take_drop 1 (drop p l)), drop_drop, Nat.add_1_r.
    apply elem_of_app. by right.
  - rewrite <- (take_drop 1 (drop p l)), drop_drop, Nat.add_1_r in Hr.
    by apply StronglySorted_app in Hr as (_ & _ & ?).
Qed.

Lemma sorted_snoc l k :
  StronglySorted lt l → (∀ d, d ∈ l → (d < k)%nat) →
  StronglySorted lt (l ++ [k]).
Proof.
  intros Hs Hlt. apply StronglySorted_app. split_and!; [|done|].
  - intros x1 x2 H1 ->%list_elem_of_singleton. auto.
  - repeat constructor.
Qed.

Lemma elem_of_delete_sorted l p dd x :
  StronglySorted lt l → l !! p = Some dd →
  x ∈ delete p l ↔ x ∈ l ∧ x ≠ dd.
Proof.
  intros Hs Hp. split.
  - intros Hx. split; [by eapply list_elem_of_delete_inv|].
    apply list_elem_of_lookup_1 in Hx as [q Hq]. intros ->.
    destruct (decide (q < p)%nat).
    + rewrite list_lookup_delete_lt in Hq by done.
      pose proof (sorted_lookup_inj _ _ _ _ Hs Hp Hq). lia.
    + rewrite list_lookup_delete_ge in Hq by lia.
      pose proof (sorted_lookup_inj _ _ _ _ Hs Hp Hq). lia.
  - intros [[q Hq]%list_elem_of_lookup_1 Hne].
    destruct (Nat.lt_trichotomy q p) as [H|[->|H]].
    + apply (list_elem_of_lookup_2 _ q). by rewrite list_lookup_delete_lt.
    + congruence.
    + apply (list_elem_of_lookup_2 _ (pred q)).
      rewrite list_lookup_delete_ge by lia.
      by replace (S (pred q)) with q by lia.
Qed.
End sorted_pool.

(** ** The binary search *)

Section bisect.

(** With fuel for every remaining candidate position the search returns,
    and it returns the boundary between the days [≤ x] and the days [> x]. *)
Lemma bisect_loop_spec fuel (a : list nat) x lo hi :
  StronglySorted lt a →
  (lo ≤ hi ≤ length a)%nat → (hi - lo ≤ fuel)%nat →
  (∀ q y, (q < lo)%nat → a !! q = Some y → (y ≤ x)%nat) →
  (∀ q y, (hi ≤ q)%nat → a !! q = Some y → (x < y)%nat) →
  ∃ p, Py.bisect_loop fuel a x lo hi = Val p ∧ (lo ≤ p ≤ hi)%nat ∧
       (∀ q y, (q < p)%nat → a !! q = Some y → (y ≤ x)%nat) ∧
       (∀ q y, (p ≤ q)%nat → a !! q = Some y → (x < y)%nat).
Proof.
  intros Hs. revert lo hi.
  induction fuel as [|fuel IH]; intros lo hi Hb Hf Hlo Hhi;
    cbn [Py.bisect_loop]; cbv zeta.
  - case_decide; [lia|]. exists lo. split_and!; auto with lia.
    intros; apply (Hhi q); [lia|done].
  - case_decide as Hlt.
    2:{ exists lo. split_and!; auto with lia.
        intros; apply (Hhi q); [lia|done]. }
    set (mid := ((lo + hi) / 2)%nat).
    assert (lo ≤ mid < hi)%nat as Hmid.
    { subst mid. split.
      - apply Nat.div_le_lower_bound; lia.
      - apply Nat.Div0.div_lt_upper_bound; lia. }
    destruct (lookup_lt_is_Some_2 a mid) as [am Ham]; [lia|].
    unfold Py.getitem. rewrite Ham. unbind. case_decide as Hx.
    + destruct (IH lo mid) as (p & -> & ? & ? & ?); try lia; auto.
      { intros q y Hq Hy. destruct (decide (q = mid)) as [->|]; [congruence|].
        pose proof (sorted_lookup_lt _ _ _ _ _ Hs Ham Hy). lia. }
      exists p. split_and!; auto with lia.
    + destruct (IH (S mid) hi) as (p & -> & ? & ? & ?); try lia; auto.
      { intros q y Hq Hy. destruct (decide (q = mid)) as [->|].
        { assert (y = am) by congruence. lia. }
        pose proof (sorted_lookup_lt _ _ _ _ _ Hs Hy Ham). lia. }
      exists p. split_and!; auto with lia.
Qed.

Lemma bisect_right_spec (a : list nat) x :
  StronglySorted lt a →
  ∃ p, Py.bisect_right a x = Val p ∧ (p ≤ length a)%nat ∧
       (∀ q y, (q < p)%nat → a !! q = Some y → (y ≤ x)%nat) ∧
       (∀ q y, (p ≤ q)%nat → a !! q = Some y → (x < y)%nat).
Proof.
  intros Hs. unfold Py.bisect_right.
  destruct (bisect_loop_spec (length a) a x 0 (length a))
    as (p & ? & ? & ? & ?); auto with lia.
  - intros q y Hq Hy. apply lookup_lt_Some in Hy. lia.
  - exists p. split_and!; auto with lia.
Qed.
End bisect.

(** ** One day of the scan *)

Section one_day.

(** The rescue needs only a sorted pool whose days index the result. *)
Lemma rescue_cases L st :
  StronglySorted lt (dry_days st) →
  (∀ d, d ∈ dry_days st → (d < length (result st))%nat) →
  match full_lakes st !! L with
  | None => rescue L st = Val (Next st)
  | Some d =>
      ((∀ x, x ∈ dry_days st → (x ≤ d)%nat) ∧
       rescue L st = Val (Return []))
      ∨ ∃ p dd, dry_days st !! p = Some dd ∧ (d < dd)%nat ∧
          (∀ x, x ∈ dry_days st → (d < x)%nat → (dd ≤ x)%nat) ∧
          rescue L st =
            Val (Next (State (<[dd:=L]> (result st))
                             (delete L (full_lakes st))
                             (delete p (dry_days st))))
  end.
Proof.
  intros Hs Hidx. unfold rescue, Py.dict_mem, Py.dict_get, Py.dict_del.
  destruct (full_lakes st !! L) as [d|] eqn:HL; simpl; [|done].
  destruct (bisect_right_spec (dry_days st) d Hs) as (p & -> & Hp & Hle & Hgt).
  unbind. case_decide as Hend.
  - left. split; [|done]. intros x [q Hq]%list_elem_of_lookup_1.
    apply (Hle q); [|done]. apply lookup_lt_Some in Hq. lia.
  - right. destruct (lookup_lt_is_Some_2 (dry_days st) p) as [dd Hdd]; [lia|].
    exists p, dd. unfold Py.getitem, Py.setitem, Py.pop. rewrite Hdd.
    rewrite decide_True by (eapply Hidx, list_elem_of_lookup_2, Hdd).
    rewrite decide_True by lia. split_and!; [done|by apply (Hgt p)| |done].
    intros x [q Hq]%list_elem_of_lookup_1 Hx.
    destruct (decide (q < p)%nat) as [Hqp|Hqp].
    + pose proof (Hle q x Hqp Hq). lia.
    + destruct (decide (q = p)) as [->|]; [by simplify_eq|].
      assert (dd < x)%nat; [|lia].
      eapply (sorted_lookup_lt _ p q); eauto. lia.
Qed.

(** The four ways a day can go: a dry day joins the pool; rain on an empty
    lake fills it; rain on a full lake with no usable dry day ends the
    function; rain on a full lake consumes the earliest usable dry day. *)
Lemma body_cases rains k st L :
  Inv rains k st → rains !! k = Some L →
  (L = 0 ∧
   body rains k st =
     Val (Next (State (result st) (full_lakes st) (dry_days st ++ [k]))))
  ∨ (L ≠ 0 ∧ full_lakes st !! L = None ∧
     body rains k st =
       Val (Next (State (result st) (<[L:=k]> (full_lakes st))
                        (dry_days st))))
  ∨ (L ≠ 0 ∧ stuck rains k st ∧ body rains k st = Val (Return []))
  ∨ (L ≠ 0 ∧ ∃ d p dd,
       full_lakes st !! L = Some d ∧ dry_days st !! p = Some dd ∧
       (d < dd)%nat ∧
       (∀ x, x ∈ dry_days st → (d < x)%nat → (dd ≤ x)%nat) ∧
       body rains k st =
         Val (Next (State (<[dd:=L]> (result st))
                          (<[L:=k]> (delete L (full_lakes st)))
                          (delete p (dry_days st))))).
Proof.
  intros HI Hk. unfold body, Py.getitem. rewrite Hk. unbind.
  case_decide as HL; [by left|]. right.
  pose proof (rescue_cases L st (inv_sorted _ _ _ HI)) as Hr.
  destruct (full_lakes st !! L) as [d|] eqn:Hfull.
  - destruct Hr as [[Hnone ->]|(p & dd & Hdd & Hlt & Hmin & ->)].
    + intros x Hx. rewrite (inv_len _ _ _ HI).
      destruct (inv_pool _ _ _ HI x Hx) as (_ & ?%lookup_lt_Some & _). done.
    + right; left. split_and!; [done| |done]. by exists L, d.
    + right; right. split; [done|]. by exists d, p, dd.
  - rewrite Hr.
    + by left.
    + intros x Hx. rewrite (inv_len _ _ _ HI).
      destruct (inv_pool _ _ _ HI x Hx) as (_ & ?%lookup_lt_Some & _). done.
Qed.

Lemma Inv_init rains : Inv rains 0 (init rains).
Proof.
  split; simpl.
  - apply length_replicate.
  - constructor.
  - intros d Hd. by apply not_elem_of_nil in Hd.
  - intros L j Hj. by rewrite lookup_empty in Hj.
  - intros; lia.
  - intros; lia.
  - intros i L Hi%lookup_lt_Some _. by apply lookup_replicate_2.
  - intros i [_ Hi]. by apply lookup_replicate_2.
Qed.

Lemma body_Val_lookup rains k st fl :
  body rains k st = Val fl → ∃ L, rains !! k = Some L.
Proof.
  unfold body, Py.getitem. destruct (rains !! k) as [L|]; [eauto|done].
Qed.

(** A dry day joins the pool. *)
Lemma Inv_dry rains k st :
  Inv rains k st → rains !! k = Some 0 →
  Inv rains (S k)
    (State (result st) (full_lakes st) (dry_days st ++ [k])).
Proof.
  intros HI Hk. pose proof (lookup_lt_Some _ _ _ Hk) as Hkn.
  split; simpl.
  - apply HI.
  - apply sorted_snoc; [apply HI|]. intros d Hd. by apply (inv_pool _ _ _ HI).
  - intros d [Hd| ->%list_elem_of_singleton]%elem_of_app.
    + destruct (inv_pool _ _ _ HI d Hd) as (? & ? & ?). auto with lia.
    + split_and!; [lia|done|]. apply (inv_future _ _ _ HI). lia.
  - intros L j Hj. destruct (inv_full _ _ _ HI L j Hj) as (? & ? & ?).
    auto with lia.
  - intros j L Hj HjL HL. apply (inv_last _ _ _ HI j L); [|done..].
    destruct (decide (j = k)) as [->|]; [congruence|lia].
  - intros j i L Hji HjL HiL HL.
    assert (i ≠ k) by congruence.
    destruct (inv_safe _ _ _ HI j i L) as (d & ? & ? & ? & Hd); [lia|done..|].
    exists d. split_and!; [lia|lia|done|done|].
    intros [?| ->%list_elem_of_singleton]%elem_of_app; [done|lia].
  - apply HI.
  - intros i Hi. apply (inv_future _ _ _ HI). lia.
Qed.

(** Rain fills a lake that is not recorded as full. *)
Lemma Inv_fill rains k st L :
  Inv rains k st → rains !! k = Some L → L ≠ 0 →
  full_lakes st !! L = None →
  Inv rains (S k)
    (State (result st) (<[L:=k]> (full_lakes st)) (dry_days st)).
Proof.
  intros HI Hk HL Hnone. split; simpl.
  - apply HI.
  - apply HI.
  - intros d Hd. destruct (inv_pool _ _ _ HI d Hd) as (? & ? & ?).
    auto with lia.
  - intros L' j. rewrite lookup_insert. case_decide as HLL.
    + intros [= <-]. subst L'. auto with lia.
    + intros Hj. destruct (inv_full _ _ _ HI L' j Hj) as (? & ? & ?).
      auto with lia.
  - intros j L' Hj HjL HL'. rewrite lookup_insert. case_decide as HLL.
    + exists k. split; [done|lia].
    + apply (inv_last _ _ _ HI j L'); [|done..].
      destruct (decide (j = k)) as [->|]; [congruence|lia].
  - intros j i L' Hji HjL HiL HL'.
    destruct (decide (i = k)) as [->|].
    + assert (L' = L) as -> by congruence.
      destruct (inv_last _ _ _ HI j L) as (j' & Hj' & _); [lia|done..|].
      congruence.
    + apply (inv_safe _ _ _ HI j i L'); [lia|done..].
  - apply HI.
  - intros i Hi. apply (inv_future _ _ _ HI). lia.
Qed.

(** Rain on a full lake consumes a pooled dry day after its last rain. *)
Lemma Inv_rescue rains k st L d p dd :
  Inv rains k st → rains !! k = Some L → L ≠ 0 →
  full_lakes st !! L = Some d → dry_days st !! p = Some dd →
  (d < dd)%nat →
  Inv rains (S k)
    (State (<[dd:=L]> (result st)) (<[L:=k]> (delete L (full_lakes st)))
           (delete p (dry_days st))).
Proof.
  intros HI Hk HL Hd Hdd Hlt.
  pose proof (inv_sorted _ _ _ HI) as Hs.
  pose proof (list_elem_of_lookup_2 _ _ _ Hdd) as Hin.
  destruct (inv_pool _ _ _ HI dd Hin) as (Hddk & Hdd0 & Hddr).
  split; simpl.
  - rewrite length_insert. apply HI.
  - by apply sorted_delete.
  - intros x [Hx Hne]%(elem_of_delete_sorted _ _ dd); [|done..].
    destruct (inv_pool _ _ _ HI x Hx) as (? & ? & ?).
    rewrite list_lookup_insert_ne by done. auto with lia.
  - intros L' j. rewrite lookup_insert. case_decide as HLL.
    + intros [= <-]. subst L'. auto with lia.
    + rewrite lookup_delete_ne by done. intros Hj.
      destruct (inv_full _ _ _ HI L' j Hj) as (? & ? & ?). auto with lia.
  - intros j L' Hj HjL HL'. rewrite lookup_insert. case_decide as HLL.
    + exists k. split; [done|lia].
    + rewrite lookup_delete_ne by done.
      apply (inv_last _ _ _ HI j L'); [|done..].
      destruct (decide (j = k)) as [->|]; [congruence|lia].
  - intros j i L' Hji HjL HiL HL'.
    destruct (decide (i = k)) as [->|].
    + assert (L' = L) as -> by congruence.
      destruct (inv_last _ _ _ HI j L) as (j' & Hj' & Hjj'); [lia|done..|].
      assert (j' = d) as -> by congruence.
      exists dd. split_and!; [lia|lia|done| |].
      * apply list_lookup_insert_eq. by apply lookup_lt_Some in Hddr.
      * intros [_ ?]%(elem_of_delete_sorted _ _ dd); done.
    + destruct (inv_safe _ _ _ HI j i L') as (x & ? & ? & ? & Hx);
        [lia|done..|].
      exists x. split_and!; [lia|lia|done| |].
      * rewrite list_lookup_insert_ne; [done|]. by intros <-.
      * intros ?%list_elem_of_delete_inv. done.
  - intros i L' HiL HL'. rewrite list_lookup_insert_ne by congruence.
    by apply (inv_rainy _ _ _ HI i L').
  - intros i Hi. rewrite list_lookup_insert_ne by lia.
    apply (inv_future _ _ _ HI). lia.
Qed.

Lemma body_Inv rains k st st' :
  Inv rains k st → body rains k st = Val (Next st') → Inv rains (S k) st'.
Proof.
  intros HI Hb. destruct (body_Val_lookup _ _ _ _ Hb) as [L Hk].
  destruct (body_cases rains k st L HI Hk)
    as [[-> E]|[(HL & Hnone & E)|[(HL & _ & E)
        |(HL & d & p & dd & Hd & Hdd & Hlt & _ & E)]]];
    rewrite E in Hb; simplify_eq.
  - by apply Inv_dry.
  - by apply Inv_fill.
  - by eapply Inv_rescue.
Qed.

(** A day either returns the sentinel from a stuck state or goes on. *)
Lemma body_total rains k st :
  Inv rains k st → (k < length rains)%nat →
  (stuck rains k st ∧ body rains k st = Val (Return []))
  ∨ ∃ st', body rains k st = Val (Next st').
Proof.
  intros HI Hk. destruct (lookup_lt_is_Some_2 rains k Hk) as [L HL].
  destruct (body_cases rains k st L HI HL)
    as [[_ E]|[(_ & _ & E)|[(_ & Hst & E)|(_ & d & p & dd & _ & _ & _ & _ & E)]]];
    eauto.
Qed.

End one_day.

(** ** The whole scan *)

Section whole_scan.

Lemma for_range_app rains l1 l2 st :
  for_range rains (l1 ++ l2) st =
    fl ← for_range rains l1 st;
    match fl with
    | Return r => Val (Return r)
    | Next st' => for_range rains l2 st'
    end.
Proof.
  revert st. induction l1 as [|i l1 IH]; intros st; simpl; [done|].
  unbind. destruct (body rains i st) as [[st'|r]| |]; simpl; auto.
Qed.

Lemma scan_upto_S rains k :
  scan_upto rains (S k) =
    fl ← scan_upto rains k;
    match fl with
    | Return r => Val (Return r)
    | Next st => body rains k st
    end.
Proof.
  unfold scan_upto. rewrite seq_S, for_range_app. simpl. unbind.
  destruct (for_range rains (seq 0 k) (init rains)) as [[st|r]| |]; try done.
  destruct (body rains k st) as [[st'|r]| |]; done.
Qed.

(** A state reached after [S k] days comes from one reached after [k]. *)
Lemma scan_upto_S_Next rains k st' :
  scan_upto rains (S k) = Val (Next st') →
  ∃ st, scan_upto rains k = Val (Next st) ∧
        body rains k st = Val (Next st').
Proof.
  rewrite scan_upto_S. unbind.
  destruct (scan_upto rains k) as [[st|r]| |]; try done. eauto.
Qed.

Lemma scan_upto_Inv rains k st :
  scan_upto rains k = Val (Next st) →
  Inv rains k st ∧ (k ≤ length rains)%nat.
Proof.
  revert st. induction k as [|k IH]; intros st Hk.
  - injection Hk as <-. split; [apply Inv_init|lia].
  - apply scan_upto_S_Next in Hk as (st0 & Hk & Hb).
    destruct (IH _ Hk) as [HI _]. split; [by eapply body_Inv|].
    destruct (body_Val_lookup _ _ _ _ Hb) as [L HL%lookup_lt_Some]. lia.
Qed.

Lemma scan_upto_earlier rains k k' st' :
  scan_upto rains k' = Val (Next st') → (k ≤ k')%nat →
  ∃ st, scan_upto rains k = Val (Next st).
Proof.
  intros Hk' Hle. revert st' Hk'.
  induction Hle as [|k' Hle IH]; intros st' Hk'; [eauto|].
  apply scan_upto_S_Next in Hk' as (st0 & Hk' & _). eauto.
Qed.

(** The scan of the first [k] days never raises and never runs out of
    fuel: it reaches a state satisfying the invariant, or it has returned
    the empty list from a stuck state. *)
Lemma scan_upto_total rains k :
  (k ≤ length rains)%nat →
  (∃ st, scan_upto rains k = Val (Next st))
  ∨ (scan_upto rains k = Val (Return []) ∧
     ∃ i st, (i < k)%nat ∧ scan_upto rains i = Val (Next st) ∧
             stuck rains i st).
Proof.
  induction k as [|k IH]; intros Hk.
  - left. by exists (init rains).
  - rewrite scan_upto_S.
    destruct IH as [[st Hst]|(-> & i & st & ? & ? & ?)]; [lia| |].
    + rewrite Hst. unbind.
      destruct (scan_upto_Inv _ _ _ Hst) as [HI _].
      destruct (body_total rains k st HI) as [[Hstuck ->]|[st' ->]];
        [lia| |by eauto].
      right. split; [done|]. exists k, st. auto with lia.
    + right. split; [done|]. exists i, st. auto with lia.
Qed.

Lemma scan_Return rains r : scan rains = Val (Return r) → r = [].
Proof.
  destruct (scan_upto_total rains (length rains)) as [[st Hst]|[Hr _]];
    [done|..]; unfold scan_upto in *; unfold scan; congruence.
Qed.

(** One day leaves alone every earlier day that is not in the pool. *)
Lemma body_stable rains k st st' d :
  Inv rains k st → body rains k st = Val (Next st') →
  (d < k)%nat → d ∉ dry_days st →
  (d ∉ dry_days st') ∧ result st' !! d = result st !! d.
Proof.
  intros HI Hb Hdk Hd. destruct (body_Val_lookup _ _ _ _ Hb) as [L Hk].
  destruct (body_cases rains k st L HI Hk)
    as [[-> E]|[(HL & Hnone & E)|[(HL & _ & E)
        |(HL & j & p & dd & Hj & Hdd & Hlt & _ & E)]]];
    rewrite E in Hb; simplify_eq; simpl.
  - split; [|done].
    intros [?| ->%list_elem_of_singleton]%elem_of_app; [done|lia].
  - done.
  - split; [by intros ?%list_elem_of_delete_inv|].
    rewrite list_lookup_insert_ne; [done|]. intros <-.
    by apply list_elem_of_lookup_2 in Hdd.
Qed.

Lemma scan_upto_stable rains k k' st st' d :
  scan_upto rains k = Val (Next st) → scan_upto rains k' = Val (Next st') →
  (k ≤ k')%nat → (d < k)%nat → d ∉ dry_days st →
  (d ∉ dry_days st') ∧ result st' !! d = result st !! d.
Proof.
  intros Hk Hk' Hle Hdk Hd. revert st' Hk'.
  induction Hle as [|k' Hle IH]; intros st' Hk'.
  - rewrite Hk in Hk'. by simplify_eq.
  - apply scan_upto_S_Next in Hk' as (st0 & Hk' & Hb).
    destruct (IH _ Hk') as [Hd0 Hr0].
    destruct (scan_upto_Inv _ _ _ Hk') as [HI _].
    destruct (body_stable rains k' st0 st' d HI Hb) as [? ?]; [lia|done|].
    split; [done|congruence].
Qed.

(** The final loop writes the placeholder on the listed days only. *)
Lemma fill_spec days (res0 : list Z) :
  (∀ d, d ∈ days → (d < length res0)%nat) →
  ∃ r, fill days res0 = Val r ∧ length r = length res0 ∧
       ∀ i, (i ∈ days → r !! i = Some 1) ∧
            (i ∉ days → r !! i = res0 !! i).
Proof.
  revert res0. induction days as [|day days IH]; intros res0 Hlt; simpl.
  - exists res0. split_and!; [done..|].
    intros i. split; [by intros ?%not_elem_of_nil|done].
  - unfold Py.setitem. rewrite decide_True by (apply Hlt; left). unbind.
    destruct (IH (<[day:=1]> res0)) as (r & -> & Hlen & Hr).
    { intros d Hd. rewrite length_insert. apply Hlt. by right. }
    rewrite length_insert in Hlen. exists r. split_and!; [done..|].
    intros i. split.
    + intros Hi. destruct (decide (i ∈ days)) as [|Hni]; [by apply Hr|].
      apply elem_of_cons in Hi as [->|]; [|done].
      rewrite (proj2 (Hr day)) by done.
      apply list_lookup_insert_eq, Hlt. left.
    + intros Hi. apply not_elem_of_cons in Hi as [? ?].
      rewrite (proj2 (Hr i)) by done. by apply list_lookup_insert_ne.
Qed.

(** The function as a whole: what it returns, in terms of the final state
    of the scan. *)
Lemma avoidFlood_cases rains :
  (avoidFlood rains = Val [] ∧
   ∃ i st, scan_upto rains i = Val (Next st) ∧ stuck rains i st)
  ∨ ∃ st r, scan_upto rains (length rains) = Val (Next st) ∧
      Inv rains (length rains) st ∧
      avoidFlood rains = Val r ∧ length r = length rains ∧
      ∀ i, (i ∈ dry_days st → r !! i = Some 1) ∧
           (i ∉ dry_days st → r !! i = result st !! i).
Proof.
  unfold avoidFlood, scan.
  destruct (scan_upto_total rains (length rains))
    as [[st Hst]|(Hr & i & st & _ & ? & ?)]; [done|..];
    unfold scan_upto in *.
  - right. rewrite Hst. unbind.
    destruct (scan_upto_Inv rains _ _ Hst) as [HI _].
    destruct (fill_spec (dry_days st) (result st)) as (r & -> & Hlen & Hr).
    { intros d Hd. destruct (inv_pool _ _ _ HI d Hd) as (_ & _ & ?).
      by eapply lookup_lt_Some. }
    exists st, r. split_and!; try done. by rewrite Hlen, (inv_len _ _ _ HI).
  - left. rewrite Hr. split; [done|]. eauto.
Qed.

End whole_scan.

(** ** Replaying the returned plan *)

Section replaying.

Lemma drop_cons_inv {A} (l : list A) k x l' :
  drop k l = x :: l' → l !! k = Some x ∧ l' = drop (S k) l.
Proof.
  intros Hd. assert (l !! k = Some x) as Hk.
  { by rewrite <- (Nat.add_0_r k), <- lookup_drop, Hd. }
  split; [done|]. rewrite (drop_S _ _ _ Hk) in Hd. congruence.
Qed.

Lemma tail_drop {A} (l : list A) k : tail (drop k l) = drop (S k) l.
Proof.
  replace (S k) with (k + 1)%nat by lia. rewrite <- drop_drop.
  by destruct (drop k l).
Qed.

(** If every repeated rain has an emptying in between, the replay of the
    rest of the schedule from any reachable set of full lakes succeeds. *)
Lemma replay_safe rains plan :
  rescued_between rains plan →
  ∀ rs k full,
    rs = drop k rains →
    (∀ L, L ∈ full → still_full rains plan k L) →
    replay rs (drop k plan) full = true.
Proof.
  intros Hresc. induction rs as [|r rs IH]; intros k full Hrs Hfull; [done|].
  symmetry in Hrs. apply drop_cons_inv in Hrs as [Hk ->].
  cbn [replay]. rewrite tail_drop. case_decide as Hr.
  - subst r. apply IH; [done|]. intros L HL.
    assert (L ∈ full ∧ plan !! k ≠ Some L) as [HLf Hpk].
    { destruct (drop k plan) as [|a ps] eqn:Hp.
      - split; [done|]. intros Hpk. apply lookup_lt_Some in Hpk.
        apply (f_equal length) in Hp. rewrite length_drop in Hp.
        simpl in Hp. lia.
      - apply drop_cons_inv in Hp as [Hp _].
        apply elem_of_difference in HL as [? Hne]. split; [done|].
        rewrite Hp. intros [= ->]. by apply Hne, elem_of_singleton. }
    destruct (Hfull L HLf) as (j & Hj & HjL & HL0 & Hno).
    exists j. split_and!; [lia|done..|].
    intros d Hd Hd0. destruct (decide (d = k)) as [->|]; [done|].
    apply Hno; [lia|done].
  - case_decide as Hin.
    + destruct (Hfull r Hin) as (j & Hj & HjL & HL0 & Hno).
      destruct (Hresc j k r Hj HjL Hk HL0) as (d & Hd & Hd0 & Hpd).
      by destruct (Hno d Hd Hd0).
    + apply IH; [done|]. intros L [->%elem_of_singleton|HL]%elem_of_union.
      * exists k. split_and!; [lia|done..|]. intros; lia.
      * destruct (Hfull L HL) as (j & Hj & HjL & HL0 & Hno).
        exists j. split_and!; [lia|done..|].
        intros d Hd Hd0. apply Hno; [|done].
        destruct (decide (d = k)) as [->|]; [congruence|lia].
Qed.

Lemma avoidFlood_rescued_between rains r :
  avoidFlood rains = Val r → r ≠ [] → rescued_between rains r.
Proof.
  intros Hr Hne.
  destruct (avoidFlood_cases rains)
    as [[E _]|(st & r' & _ & HI & E & _ & Hval)]; [congruence|].
  assert (r' = r) as -> by congruence.
  intros j i L Hji HjL HiL HL.
  destruct (inv_safe _ _ _ HI j i L) as (d & ? & ? & Hd & Hnin);
    [by apply lookup_lt_Some in HiL; lia|done..|].
  exists d. split_and!; [lia|lia|done|].
  by rewrite (proj2 (Hval d)).
Qed.

End replaying.

(** ** Dry days and their final values *)

Section dry_days_history.

Lemma body_consumes rains k st st' d :
  Inv rains k st → body rains k st = Val (Next st') →
  d ∈ dry_days st → d ∉ dry_days st' →
  ∃ L, rains !! k = Some L ∧ L ≠ 0 ∧ result st' !! d = Some L.
Proof.
  intros HI Hb Hd Hd'. destruct (body_Val_lookup _ _ _ _ Hb) as [L Hk].
  destruct (body_cases rains k st L HI Hk)
    as [[-> E]|[(HL & Hnone & E)|[(HL & _ & E)
        |(HL & j & p & dd & Hj & Hdd & Hlt & _ & E)]]];
    rewrite E in Hb; simplify_eq; simpl in *.
  - destruct Hd'. apply elem_of_app. by left.
  - exists L. split_and!; [done..|].
    destruct (decide (d = dd)) as [->|Hne].
    + apply list_lookup_insert_eq.
      destruct (inv_pool _ _ _ HI dd Hd) as (_ & _ & ?).
      by eapply lookup_lt_Some.
    + destruct Hd'. apply (elem_of_delete_sorted _ _ dd); [apply HI|done..].
Qed.

Lemma scan_upto_step rains k st st' :
  scan_upto rains k = Val (Next st) → body rains k st = Val (Next st') →
  scan_upto rains (S k) = Val (Next st').
Proof. intros Hk Hb. by rewrite scan_upto_S, Hk. Qed.

(** A dry day that has been scanned is either still pooled, or some later
    rainy day consumed it and wrote its lake there. *)
Lemma dry_day_history rains d k st :
  scan_upto rains k = Val (Next st) → (d < k)%nat → rains !! d = Some 0 →
  d ∈ dry_days st
  ∨ ((d ∉ dry_days st) ∧
     ∃ i L, (i < k)%nat ∧ consumed_at rains i d ∧
            rains !! i = Some L ∧ L ≠ 0 ∧ result st !! d = Some L).
Proof.
  revert st. induction k as [|k IH]; intros st Hk Hdk Hd0; [lia|].
  apply scan_upto_S_Next in Hk as (st0 & Hk & Hb).
  destruct (scan_upto_Inv _ _ _ Hk) as [HI _].
  destruct (decide (d ∈ dry_days st)) as [|Hnin]; [by left|right].
  split; [done|].
  assert (d ∈ dry_days st0 → ∃ i L, (i < S k)%nat ∧ consumed_at rains i d ∧
            rains !! i = Some L ∧ L ≠ 0 ∧ result st !! d = Some L) as Hnow.
  { intros Hin.
    destruct (body_consumes rains k st0 st d HI Hb Hin Hnin)
      as (L & ? & ? & ?).
    exists k, L. split_and!; [lia| |done..]. by exists st0, st. }
  destruct (decide (d = k)) as [->|Hne].
  - apply Hnow.
    destruct (body_cases rains k st0 0 HI Hd0)
      as [[_ E]|[(? & _)|[(? & _)|(? & _)]]]; try done.
    rewrite E in Hb. simplify_eq. destruct Hnin. simpl.
    apply elem_of_app. right. by apply list_elem_of_singleton.
  - destruct (IH st0 Hk) as [Hin|(Hnin0 & i & L & ? & ? & ? & ? & Hres)];
      [lia|done|by apply Hnow|].
    destruct (body_stable rains k st0 st d HI Hb) as [_ Hsame];
      [lia|done|].
    exists i, L. split_and!; [lia|done..|congruence].
Qed.

Lemma consumed_not_pooled rains i d k st :
  consumed_at rains i d → scan_upto rains k = Val (Next st) →
  (i < k)%nat → d ∉ dry_days st.
Proof.
  intros (sti & sti' & Hi & Hb & Hin & Hnin) Hk Hik.
  destruct (scan_upto_Inv _ _ _ Hi) as [HI _].
  destruct (inv_pool _ _ _ HI d Hin) as (Hdi & _).
  pose proof (scan_upto_step _ _ _ _ Hi Hb) as HSi.
  by destruct (scan_upto_stable rains (S i) k sti' st d HSi Hk) as [? _];
    [lia|lia|done|].
Qed.

(** The value the returned plan holds on a dry day. *)
Lemma dry_day_value rains r d :
  avoidFlood rains = Val r → r ≠ [] → rains !! d = Some 0 →
  (∃ i L, consumed_at rains i d ∧ rains !! i = Some L ∧ L ≠ 0 ∧
          r !! d = Some L)
  ∨ ((∀ i, ¬ consumed_at rains i d) ∧ r !! d = Some 1).
Proof.
  intros Hr Hne Hd0.
  destruct (avoidFlood_cases rains)
    as [[E _]|(st & r' & Hst & HI & E & _ & Hval)]; [congruence|].
  assert (r' = r) as -> by congruence.
  pose proof (lookup_lt_Some _ _ _ Hd0) as Hdn.
  destruct (dry_day_history rains d _ st Hst Hdn Hd0)
    as [Hin|(Hnin & i & L & ? & ? & ? & ? & Hres)].
  - right. split; [|by apply Hval].
    intros i Hc. pose proof Hc as (sti & sti' & Hi & Hb & _).
    pose proof (scan_upto_step _ _ _ _ Hi Hb) as HSi.
    destruct (scan_upto_Inv _ _ _ HSi) as [_ Hle].
    by apply (consumed_not_pooled rains i d _ st Hc Hst).
  - left. exists i, L. split_and!; [done..|].
    by rewrite (proj2 (Hval d)).
Qed.

(** A dry day is consumed at most once. *)
Lemma consumed_at_unique rains d i i' :
  consumed_at rains i d → consumed_at rains i' d → i = i'.
Proof.
  intros Hc Hc'.
  destruct (Nat.lt_trichotomy i i') as [Hlt|[->|Hlt]]; [|done|].
  - pose proof Hc' as (st & _ & Hi' & _ & Hin & _).
    by destruct (consumed_not_pooled rains i d i' st Hc Hi' Hlt).
  - pose proof Hc as (st & _ & Hi & _ & Hin & _).
    by destruct (consumed_not_pooled rains i' d i st Hc' Hi Hlt).
Qed.

End dry_days_history.

(** The judge does reject plans: without an emptying lake 1 floods, and
    emptying lake 1 on the only dry day of [[1;2;0;1;2]] lets lake 2 flood. *)
Example replay_rejects_no_emptying : replay [1;0;1] [-1;2;-1] ∅ = false.
Proof. vm_compute. reflexivity. Qed.

Example replay_rejects_one_dry_day_for_two_lakes :
  replay [1;2;0;1;2] [-1;-1;1;-1;-1] ∅ = false.
Proof. vm_compute. reflexivity. Qed.

Example replay_accepts_rescue : replay [1;0;1] [-1;1;-1] ∅ = true.
Proof. vm_compute. reflexivity. Qed.

(** ** The properties of the planner *)

(** C1.  Whenever [avoidFlood] returns a non-empty schedule, replaying the
    rain sequence while emptying, on each dry day, the lake the schedule
    names there never floods a lake. *)
Theorem avoidFlood_replay_never_floods rains plan :
  avoidFlood rains = Val plan → plan ≠ [] →
  replay rains plan ∅ = true.
Proof.
  intros Hr Hne.
  apply (replay_safe rains plan (avoidFlood_rescued_between _ _ Hr Hne)
           rains 0 ∅); [done|].
  intros L HL. by apply not_elem_of_empty in HL.
Qed.

Lemma avoidFlood_replay_never_floods_witness :
  avoidFlood [1;0;2;0;2] = Val [-1;1;-1;2;-1] ∧
  replay [1;0;2;0;2] [-1;1;-1;2;-1] ∅ = true.
Proof.
  assert (avoidFlood [1;0;2;0;2] = Val [-1;1;-1;2;-1]) as H
    by (vm_compute; reflexivity).
  split; [exact H|].
  apply (avoidFlood_replay_never_floods [1;0;2;0;2] [-1;1;-1;2;-1] H).
  discriminate.
Defined.

(** C2, as the code has it.  [avoidFlood [1;2;1]] is the empty list,
    [avoidFlood [1;2;3;4]] is [[-1;-1;-1;-1]], and [avoidFlood [1;2;0;1;2]]
    is the empty list too: the single dry day empties lake 1, and lake 2
    then floods on day 4. *)
Theorem avoidFlood_examples :
  avoidFlood [1;2;1] = Val [] ∧
  avoidFlood [1;2;3;4] = Val [-1;-1;-1;-1] ∧
  avoidFlood [1;2;0;1;2] = Val [].
Proof. split_and!; vm_compute; reflexivity. Qed.

(** C2, as the spec words it, fails: on [[1;2;0;1;2]] the function does not
    return a plan with [1] at index 2 and [-1] at the other four indices. *)
Lemma avoidFlood_examples_as_stated_fail :
  ¬ (avoidFlood [1;2;1] = Val [] ∧
     avoidFlood [1;2;3;4] = Val [-1;-1;-1;-1] ∧
     ∃ plan, avoidFlood [1;2;0;1;2] = Val plan ∧
             plan !! 2%nat = Some 1 ∧
             ∀ i, (i < 5)%nat → i ≠ 2%nat → plan !! i = Some (-1)).
Proof.
  intros (_ & _ & plan & Hplan & H2 & _).
  assert (avoidFlood [1;2;0;1;2] = Val []) as E by (vm_compute; reflexivity).
  rewrite E in Hplan. injection Hplan as <-. discriminate H2.
Qed.

(** C3.  Infeasibility is the only failure of [avoidFlood].  For every list
    of integers, in particular every list of non-negative ones, the function
    returns a value: it neither raises nor diverges, and the value is the
    empty list or a list as long as the input.  When the scan reaches a day
    on which it is stuck (rain on a lake full since day [d], no pooled dry
    day after [d]), the loop returns the empty list at that day whatever
    days remain, and so does the function.  Conversely a non-empty input
    yields the empty list only through such a day. *)
Theorem infeasibility_sole_failure_mode rains :
  (∃ r, avoidFlood rains = Val r ∧ (r = [] ∨ length r = length rains))
  ∧ (∀ i st, scan_upto rains i = Val (Next st) → stuck rains i st →
       body rains i st = Val (Return []) ∧
       (∀ rest, for_range rains (i :: rest) st = Val (Return [])) ∧
       avoidFlood rains = Val [])
  ∧ (avoidFlood rains = Val [] → rains ≠ [] →
       ∃ i st, scan_upto rains i = Val (Next st) ∧ stuck rains i st).
Proof.
  split_and!.
  - destruct (avoidFlood_cases rains)
      as [[E _]|(st & r & _ & _ & E & Hlen & _)]; eauto.
  - intros i st Hi (L & d & HiL & HL & Hd & Hnone).
    destruct (scan_upto_Inv _ _ _ Hi) as [HI _].
    assert (body rains i st = Val (Return [])) as Hb.
    { destruct (body_cases rains i st L HI HiL)
        as [[-> E]|[(_ & Hn & E)|[(_ & _ & E)
            |(_ & d' & p & dd & Hd' & Hdd & Hlt & _ & E)]]];
        [done|congruence|done|].
      assert (d' = d) as -> by congruence.
      apply list_elem_of_lookup_2, Hnone in Hdd. lia. }
    assert (∀ rest, for_range rains (i :: rest) st = Val (Return [])) as Hfor.
    { intros rest. simpl. by rewrite Hb. }
    split_and!; [done..|].
    pose proof (lookup_lt_Some _ _ _ HiL) as Hin.
    unfold avoidFlood, scan.
    replace (length rains) with (i + S (length rains - S i))%nat by lia.
    rewrite seq_app, for_range_app. fold (scan_upto rains i).
    rewrite Hi. unbind. cbn [seq]. by rewrite Hfor.
  - intros Hr Hne.
    destruct (avoidFlood_cases rains)
      as [[_ ?]|(st & r & _ & _ & E & Hlen & _)]; [done|].
    assert (r = []) as -> by congruence. by destruct rains.
Qed.

Lemma infeasibility_sole_failure_mode_witness :
  ∃ st, scan_upto [1;2;1] 2 = Val (Next st) ∧ stuck [1;2;1] 2 st ∧
        body [1;2;1] 2 st = Val (Return []) ∧
        avoidFlood [1;2;1] = Val [].
Proof.
  eexists. split; [vm_compute; reflexivity|].
  match goal with |- stuck ?rains ?i ?st ∧ _ =>
    assert (stuck rains i st) as Hstuck
  end.
  { exists 1, 0%nat. split_and!; [reflexivity|discriminate|reflexivity|].
    intros x Hx. by apply not_elem_of_nil in Hx. }
  split; [exact Hstuck|].
  destruct (infeasibility_sole_failure_mode [1;2;1]) as (_ & H & _).
  destruct (H 2%nat _ eq_refl Hstuck) as (Hb & _ & Hr).
  split; [exact Hb|exact Hr].
Defined.

(** C4.  When the scan, in the state [st] it has reached before day [i],
    rescues lake [L] that is full since day [d], the dry day [dd] it writes
    [L] on is in the pool, lies after [d], and no pooled day after [d] is
    earlier; it is the day removed from the pool. *)
Theorem rescue_picks_earliest rains i st st' L d :
  scan_upto rains i = Val (Next st) → rains !! i = Some L → L ≠ 0 →
  full_lakes st !! L = Some d → body rains i st = Val (Next st') →
  ∃ p dd, dry_days st !! p = Some dd ∧ dd ∈ dry_days st ∧ (d < dd)%nat ∧
          (∀ x, x ∈ dry_days st → (d < x)%nat → (dd ≤ x)%nat) ∧
          result st' = <[dd:=L]> (result st) ∧
          dry_days st' = delete p (dry_days st) ∧
          (dd ∉ dry_days st') ∧
          full_lakes st' = <[L:=i]> (delete L (full_lakes st)).
Proof.
  intros Hi HiL HL Hd Hb. destruct (scan_upto_Inv _ _ _ Hi) as [HI _].
  destruct (body_cases rains i st L HI HiL)
    as [[-> E]|[(_ & Hn & E)|[(_ & _ & E)
        |(_ & d' & p & dd & Hd' & Hdd & Hlt & Hmin & E)]]];
    [done|congruence|congruence|].
  assert (d' = d) as -> by congruence.
  rewrite E in Hb. injection Hb as <-. simpl.
  exists p, dd. split_and!; try done.
  - by eapply list_elem_of_lookup_2.
  - intros [_ ?]%(elem_of_delete_sorted _ _ dd); [done|apply HI|done].
Qed.

Lemma rescue_picks_earliest_witness :
  ∃ st st', scan_upto [1;0;0;1] 3 = Val (Next st) ∧
            body [1;0;0;1] 3 st = Val (Next st') ∧
            dry_days st = [1%nat; 2%nat] ∧
            ∃ p dd, dry_days st !! p = Some dd ∧ dd = 1%nat ∧
                    result st' = <[dd:=1]> (result st) ∧
                    dry_days st' = [2%nat].
Proof.
  eexists. eexists. split; [vm_compute; reflexivity|].
  split; [vm_compute; reflexivity|]. split; [reflexivity|].
  match goal with
  | |- ∃ p dd, dry_days ?st !! _ = _ ∧ _ ∧ result ?st' = _ ∧ _ =>
      destruct (rescue_picks_earliest [1;0;0;1] 3 st st' 1 0 eq_refl eq_refl)
        as (p & dd & Hp & _ & Hlt & Hmin & Hres & Hdry & _);
        [discriminate|reflexivity|reflexivity|]
  end.
  exists p, dd. split; [exact Hp|].
  assert (dd = 1%nat) as Hdd.
  { destruct p as [|[|p]]; simpl in Hp.
    - by injection Hp.
    - injection Hp as <-.
      assert (2 ≤ 1)%nat; [|lia]. apply Hmin; [|lia]. left.
    - rewrite lookup_nil in Hp. discriminate Hp. }
  split; [exact Hdd|]. split; [exact Hres|].
  rewrite Hdry. destruct p as [|[|p]]; simpl in Hp; simpl.
  - reflexivity.
  - injection Hp as <-. discriminate Hdd.
  - rewrite lookup_nil in Hp. discriminate Hp.
Defined.

(** C5.  A non-empty returned schedule is exactly as long as the rain
    schedule. *)
Theorem avoidFlood_length rains plan :
  avoidFlood rains = Val plan → plan ≠ [] → length plan = length rains.
Proof.
  intros Hr Hne.
  destruct (avoidFlood_cases rains)
    as [[E _]|(st & r & _ & _ & E & Hlen & _)]; congruence.
Qed.

Lemma avoidFlood_length_witness :
  avoidFlood [1;0;2;0;2] = Val [-1;1;-1;2;-1] ∧
  length [-1;1;-1;2;-1] = length [1;0;2;0;2].
Proof.
  assert (avoidFlood [1;0;2;0;2] = Val [-1;1;-1;2;-1]) as H
    by (vm_compute; reflexivity).
  split; [exact H|].
  apply (avoidFlood_length [1;0;2;0;2] [-1;1;-1;2;-1] H). discriminate.
Defined.

(** C6.  In a non-empty returned schedule every rainy day, that is every
    index [i] with [rains[i] > 0], holds [-1]. *)
Theorem avoidFlood_rainy_day rains plan i L :
  avoidFlood rains = Val plan → plan ≠ [] →
  rains !! i = Some L → 0 < L →
  plan !! i = Some (-1).
Proof.
  intros Hr Hne HiL HL.
  destruct (avoidFlood_cases rains)
    as [[E _]|(st & r & _ & HI & E & _ & Hval)]; [congruence|].
  assert (r = plan) as -> by congruence.
  rewrite (proj2 (Hval i)).
  - apply (inv_rainy _ _ _ HI i L); [done|lia].
  - intros Hin. destruct (inv_pool _ _ _ HI i Hin) as (_ & ? & _).
    assert (L = 0) by congruence. lia.
Qed.

Lemma avoidFlood_rainy_day_witness :
  avoidFlood [1;0;2;0;2] = Val [-1;1;-1;2;-1] ∧
  [-1;1;-1;2;-1] !! 4%nat = Some (-1).
Proof.
  assert (avoidFlood [1;0;2;0;2] = Val [-1;1;-1;2;-1]) as H
    by (vm_compute; reflexivity).
  split; [exact H|].
  apply (avoidFlood_rainy_day [1;0;2;0;2] [-1;1;-1;2;-1] 4 2 H);
    [discriminate|reflexivity|lia].
Defined.

(** C7.  For a rain schedule of non-negative integers and a non-empty
    returned schedule, the value on a dry day is [-1] or a positive lake
    id, and it is not [0]. *)
Theorem avoidFlood_dry_day_range rains plan i :
  Forall (λ x, 0 ≤ x) rains →
  avoidFlood rains = Val plan → plan ≠ [] →
  rains !! i = Some 0 →
  ∃ v, plan !! i = Some v ∧ (v = -1 ∨ 0 < v) ∧ v ≠ 0.
Proof.
  intros Hpos Hr Hne Hi0.
  destruct (dry_day_value rains plan i Hr Hne Hi0)
    as [(k & L & _ & HkL & HL & Hv)|[_ Hv]].
  - exists L. rewrite Forall_lookup in Hpos. specialize (Hpos k L HkL).
    split_and!; [done|right; lia|done].
  - exists 1. split_and!; [done|right; lia|lia].
Qed.

Lemma avoidFlood_dry_day_range_witness :
  avoidFlood [1;0;2;0;2] = Val [-1;1;-1;2;-1] ∧
  ∃ v, [-1;1;-1;2;-1] !! 3%nat = Some v ∧ (v = -1 ∨ 0 < v) ∧ v ≠ 0.
Proof.
  assert (avoidFlood [1;0;2;0;2] = Val [-1;1;-1;2;-1]) as H
    by (vm_compute; reflexivity).
  split; [exact H|].
  apply (avoidFlood_dry_day_range [1;0;2;0;2] [-1;1;-1;2;-1] 3);
    [|exact H|discriminate|reflexivity].
  repeat constructor; lia.
Defined.

(** C8.  In every state [st] the scan reaches, the pool of dry days is
    strictly ascending and holds dry days already scanned; a dry day is
    appended at the end of the pool when it is scanned; and a scanned day
    [d] that is not in the pool stays out of the pool in every later state
    and keeps its entry of the result, up to and including the schedule
    that is returned. *)
Theorem pool_ascending_consumed_once rains k st :
  scan_upto rains k = Val (Next st) →
  StronglySorted lt (dry_days st)
  ∧ (∀ d, d ∈ dry_days st → (d < k)%nat ∧ rains !! d = Some 0)
  ∧ (rains !! k = Some 0 →
       body rains k st =
         Val (Next (State (result st) (full_lakes st) (dry_days st ++ [k]))))
  ∧ (∀ d, (d < k)%nat → d ∉ dry_days st →
       (∀ k' st', (k ≤ k')%nat → scan_upto rains k' = Val (Next st') →
          (d ∉ dry_days st') ∧ result st' !! d = result st !! d)
       ∧ (∀ plan, avoidFlood rains = Val plan → plan ≠ [] →
            plan !! d = result st !! d)).
Proof.
  intros Hk. destruct (scan_upto_Inv _ _ _ Hk) as [HI Hkn].
  split_and!.
  - apply HI.
  - intros d Hd. destruct (inv_pool _ _ _ HI d Hd) as (? & ? & _). done.
  - intros Hk0.
    destruct (body_cases rains k st 0 HI Hk0)
      as [[_ E]|[(? & _)|[(? & _)|(? & _)]]]; done.
  - intros d Hdk Hd. split.
    + intros k' st' Hle Hk'. by eapply scan_upto_stable.
    + intros plan Hr Hne.
      destruct (avoidFlood_cases rains)
        as [[E _]|(stn & r & Hn & _ & E & _ & Hval)]; [congruence|].
      assert (r = plan) as -> by congruence.
      destruct (scan_upto_stable rains k _ st stn d Hk Hn) as [Hnin Hsame];
        [done..|].
      by rewrite (proj2 (Hval d)).
Qed.

Lemma pool_ascending_consumed_once_witness :
  ∃ st, scan_upto [1;0;0;1] 4 = Val (Next st) ∧
        dry_days st = [2%nat] ∧ result st !! 1%nat = Some 1 ∧
        StronglySorted lt (dry_days st) ∧
        ∀ plan, avoidFlood [1;0;0;1] = Val plan → plan ≠ [] →
                plan !! 1%nat = result st !! 1%nat.
Proof.
  eexists. split; [vm_compute; reflexivity|].
  split; [reflexivity|]. split; [reflexivity|].
  match goal with
  | |- StronglySorted lt (dry_days ?st) ∧ _ =>
      destruct (pool_ascending_consumed_once [1;0;0;1] 4 st eq_refl)
        as (Hs & _ & _ & Hout)
  end.
  split; [exact Hs|].
  apply (Hout 1%nat); [lia|].
  intros [E|H]%elem_of_cons; [discriminate E|].
  by apply not_elem_of_nil in H.
Defined.

(** C9.  On the empty rain schedule the scan ends normally, without a
    [return] from the loop, and [avoidFlood] returns the empty list; every
    schedule on which the loop does [return], such as [[1;2;1]], yields the
    very same value. *)
Theorem empty_input_indistinguishable :
  scan [] = Val (Next (init [])) ∧
  avoidFlood [] = Val [] ∧
  scan [1;2;1] = Val (Return []) ∧
  (∀ rains r, scan rains = Val (Return r) →
     avoidFlood rains = avoidFlood []).
Proof.
  split_and!; [reflexivity|reflexivity|vm_compute; reflexivity|].
  intros rains r Hr. pose proof (scan_Return _ _ Hr) as ->.
  unfold avoidFlood at 1. by rewrite Hr.
Qed.

Lemma empty_input_indistinguishable_witness :
  scan [1;2;1] = Val (Return []) ∧ avoidFlood [1;2;1] = avoidFlood [].
Proof.
  destruct empty_input_indistinguishable as (_ & _ & Hs & H).
  split; [exact Hs|]. exact (H [1;2;1] [] Hs).
Defined.

(** C10.  For a rain schedule of non-negative integers and a non-empty
    returned schedule, every dry day holds a positive value, so none is
    left at [-1]: if a rainy day [i] consumed that dry day to rescue its
    lake, the value is that lake, [rains[i]]; if no day consumed it, the
    value is the placeholder [1]. *)
Theorem avoidFlood_dry_day_filled rains plan d :
  Forall (λ x, 0 ≤ x) rains →
  avoidFlood rains = Val plan → plan ≠ [] →
  rains !! d = Some 0 →
  ∃ v, plan !! d = Some v ∧ 0 < v ∧
       (∀ i, consumed_at rains i d → rains !! i = Some v) ∧
       ((∀ i, ¬ consumed_at rains i d) → v = 1).
Proof.
  intros Hpos Hr Hne Hd0.
  destruct (dry_day_value rains plan d Hr Hne Hd0)
    as [(k & L & Hc & HkL & HL & Hv)|[Hnever Hv]].
  - exists L. rewrite Forall_lookup in Hpos. specialize (Hpos k L HkL).
    split_and!; [done|lia| |].
    + intros i Hi. by rewrite (consumed_at_unique rains d i k Hi Hc).
    + intros Hnever. by destruct (Hnever k).
  - exists 1. split_and!; [done|lia| |done].
    intros i Hi. by destruct (Hnever i).
Qed.

Lemma avoidFlood_dry_day_filled_witness :
  avoidFlood [1;0;2;0;2] = Val [-1;1;-1;2;-1] ∧
  ∃ v, [-1;1;-1;2;-1] !! 3%nat = Some v ∧ 0 < v ∧
       (∀ i, consumed_at [1;0;2;0;2] i 3 → [1;0;2;0;2] !! i = Some v) ∧
       ((∀ i, ¬ consumed_at [1;0;2;0;2] i 3) → v = 1).
Proof.
  assert (avoidFlood [1;0;2;0;2] = Val [-1;1;-1;2;-1]) as H
    by (vm_compute; reflexivity).
  split; [exact H|].
  apply (avoidFlood_dry_day_filled [1;0;2;0;2] [-1;1;-1;2;-1] 3);
    [|exact H|discriminate|reflexivity].
  repeat constructor; lia.
Defined.

(** ** The judge, declaratively *)

Section judge.

(** A lake that is full when the replay resumes at day [k] is emptied
    before its next rain. *)
Lemma replay_full_emptied rains plan :
  ∀ rs k full,
    rs = drop k rains → replay rs (drop k plan) full = true →
    ∀ i L, (k ≤ i)%nat → rains !! i = Some L → L ≠ 0 → L ∈ full →
      ∃ d, (k ≤ d < i)%nat ∧ rains !! d = Some 0 ∧ plan !! d = Some L.
Proof.
  induction rs as [|r rs IH]; intros k full Hrs Hrep i L Hki HiL HL Hfull.
  - apply (f_equal length) in Hrs. rewrite length_drop in Hrs. simpl in Hrs.
    apply lookup_lt_Some in HiL. lia.
  - symmetry in Hrs. apply drop_cons_inv in Hrs as [Hk ->].
    cbn [replay] in Hrep. rewrite tail_drop in Hrep.
    case_decide as Hr.
    + subst r. assert (i ≠ k) by congruence.
      destruct (decide (plan !! k = Some L)) as [HkL|HkL].
      { exists k. split_and!; [lia|lia|done..]. }
      destruct (IH (S k) _ eq_refl Hrep i L) as (d & ? & ? & ?);
        [lia|done..| |exists d; split_and!; [lia|lia|done..]].
      destruct (drop k plan) as [|a ps] eqn:Hp; [done|].
      apply drop_cons_inv in Hp as [Hp _].
      apply elem_of_difference. split; [done|].
      intros ->%elem_of_singleton. congruence.
    + case_decide as Hin; [done|].
      destruct (decide (i = k)) as [->|]; [by simplify_eq|].
      destruct (IH (S k) _ eq_refl Hrep i L) as (d & ? & ? & ?);
        [lia|done..| |exists d; split_and!; [lia|lia|done..]].
      apply elem_of_union. by right.
Qed.

Lemma replay_rain_emptied rains plan :
  ∀ rs k full,
    rs = drop k rains → replay rs (drop k plan) full = true →
    ∀ j i L, (k ≤ j < i)%nat →
      rains !! j = Some L → rains !! i = Some L → L ≠ 0 →
      ∃ d, (j < d < i)%nat ∧ rains !! d = Some 0 ∧ plan !! d = Some L.
Proof.
  induction rs as [|r rs IH]; intros k full Hrs Hrep j i L Hkj HjL HiL HL.
  - apply (f_equal length) in Hrs. rewrite length_drop in Hrs. simpl in Hrs.
    apply lookup_lt_Some in HiL. lia.
  - symmetry in Hrs. apply drop_cons_inv in Hrs as [Hk ->].
    cbn [replay] in Hrep. rewrite tail_drop in Hrep.
    destruct (decide (j = k)) as [->|Hne].
    + assert (r = L) as -> by congruence.
      rewrite decide_False in Hrep by done.
      case_decide as Hin; [done|].
      destruct (replay_full_emptied rains plan _ (S k) _ eq_refl Hrep i L)
        as (d & ? & ? & ?); [lia|done..| |].
      * apply elem_of_union. left. by apply elem_of_singleton.
      * exists d. split_and!; [lia|lia|done..].
    + case_decide as Hr.
      * apply (IH (S k) _ eq_refl Hrep j i L); [lia|done..].
      * case_decide as Hin; [done|].
        apply (IH (S k) _ eq_refl Hrep j i L); [lia|done..].
Qed.

(** The replay accepts a plan exactly when every repeated rain has an
    emptying in between. *)
Lemma replay_true_iff rains plan :
  replay rains plan ∅ = true ↔ rescued_between rains plan.
Proof.
  split.
  - intros Hrep j i L Hji. apply (replay_rain_emptied rains plan rains 0 ∅);
      [done|done|lia].
  - intros Hresc. apply (replay_safe rains plan Hresc rains 0 ∅); [done|].
    intros L HL. by apply not_elem_of_empty in HL.
Qed.

Lemma rescued_between_rescues rains plan :
  rescued_between rains plan → rescues rains (λ d, default 0 (plan !! d)).
Proof.
  intros Hresc j i L Hji HjL HiL HL.
  destruct (Hresc j i L Hji HjL HiL HL) as (d & ? & ? & Hd).
  exists d. by rewrite Hd.
Qed.

End judge.

(** ** The greedy choice loses nothing *)

Section exchange.

(** A consumed dry day lies between two rains on the lake it rescues. *)
Lemma consumed_at_job rains i d :
  consumed_at rains i d →
  ∃ a L, (a < d < i)%nat ∧ rains !! a = Some L ∧ rains !! i = Some L ∧
         L ≠ 0 ∧
         ∀ b, (a < b < i)%nat → rains !! b ≠ Some L.
Proof.
  intros (st & st' & Hi & Hb & Hin & Hnin).
  destruct (scan_upto_Inv _ _ _ Hi) as [HI _].
  destruct (body_Val_lookup _ _ _ _ Hb) as [L HiL].
  destruct (body_cases rains i st L HI HiL)
    as [[-> E]|[(HL & Hnone & E)|[(HL & _ & E)
        |(HL & a & p & dd & Ha & Hdd & Hlt & _ & E)]]];
    rewrite E in Hb; simplify_eq; simpl in *.
  - destruct Hnin. apply elem_of_app. by left.
  - assert (d = dd) as ->.
    { destruct (decide (d = dd)) as [|Hne]; [done|]. destruct Hnin.
      apply (elem_of_delete_sorted _ _ dd); [apply HI|done..]. }
    destruct (inv_full _ _ _ HI L a Ha) as (Hai & HaL & _).
    destruct (inv_pool _ _ _ HI dd Hin) as (Hddi & _).
    exists a, L. split_and!; [lia|lia|done..|].
    intros b Hb HbL.
    destruct (inv_last _ _ _ HI b L) as (a' & Ha' & ?); [lia|done..|].
    assert (a' = a) by congruence. lia.
Qed.

(** A scanned dry day outside the pool holds a lake that rained before it
    and again after it, within the scanned days. *)
Lemma used_day_job rains k st d :
  scan_upto rains k = Val (Next st) →
  (d < k)%nat → rains !! d = Some 0 → d ∉ dry_days st →
  ∃ a b L, (a < d < b)%nat ∧ (b < k)%nat ∧
           rains !! a = Some L ∧ rains !! b = Some L ∧ L ≠ 0 ∧
           result st !! d = Some L.
Proof.
  intros Hk Hdk Hd0 Hnin.
  destruct (dry_day_history rains d k st Hk Hdk Hd0)
    as [?|(_ & i & L & Hik & Hc & HiL & HL & Hres)]; [done|].
  destruct (consumed_at_job rains i d Hc) as (a & L' & ? & HaL & HiL' & _).
  assert (L' = L) as -> by congruence.
  exists a, i, L. split_and!; [lia|lia|done..].
Qed.

(** Whatever valid schedule agrees with the scan so far keeps, for the lake
    that rains next, its emptying day in the pool. *)
Lemma rescuer_in_pool rains P k st L j :
  scan_upto rains k = Val (Next st) →
  rescues rains P → agrees rains P k st →
  rains !! k = Some L → L ≠ 0 → full_lakes st !! L = Some j →
  ∃ m, (j < m < k)%nat ∧ rains !! m = Some 0 ∧ P m = L ∧ m ∈ dry_days st.
Proof.
  intros Hk HP Hag HkL HL Hj.
  destruct (scan_upto_Inv _ _ _ Hk) as [HI _].
  destruct (inv_full _ _ _ HI L j Hj) as (Hjk & HjL & _).
  destruct (HP j k L Hjk HjL HkL HL) as (m & Hm & Hm0 & HPm).
  exists m. split_and!; [lia|lia|done..|].
  destruct (decide (m ∈ dry_days st)) as [|Hnin]; [done|exfalso].
  destruct (used_day_job rains k st m Hk) as (a & b & L' & ? & ? & _ & HbL & _ & Hres);
    [lia|done..|].
  rewrite (Hag m) in Hres by (done || lia).
  assert (L' = L) as -> by congruence.
  destruct (inv_last _ _ _ HI b L) as (j' & Hj' & ?); [lia|done..|].
  assert (j' = j) by congruence. lia.
Qed.

(** The exchange step: a valid schedule that agrees with the scan before a
    rescue can be changed into one that agrees with it after the rescue. *)
Lemma exchange_step rains P k st L j p dd :
  scan_upto rains k = Val (Next st) →
  rescues rains P → agrees rains P k st →
  rains !! k = Some L → L ≠ 0 → full_lakes st !! L = Some j →
  dry_days st !! p = Some dd → (j < dd)%nat →
  (∀ x, x ∈ dry_days st → (j < x)%nat → (dd ≤ x)%nat) →
  ∃ P', rescues rains P' ∧
        agrees rains P' (S k)
          (State (<[dd:=L]> (result st)) (<[L:=k]> (delete L (full_lakes st)))
                 (delete p (dry_days st))).
Proof.
  intros Hk HP Hag HkL HL Hj Hdd Hjdd Hmin.
  destruct (scan_upto_Inv _ _ _ Hk) as [HI _].
  pose proof (inv_sorted _ _ _ HI) as Hs.
  pose proof (list_elem_of_lookup_2 _ _ _ Hdd) as Hddin.
  destruct (inv_pool _ _ _ HI dd Hddin) as (Hddk & Hdd0 & Hddr).
  destruct (rescuer_in_pool rains P k st L j Hk HP Hag HkL HL Hj)
    as (m & Hm & Hm0 & HPm & Hmin').
  pose proof (Hmin m Hmin' ltac:(lia)) as Hddm.
  set (P' := λ x, if decide (x = dd) then L
                  else if decide (x = m) then P dd else P x).
  exists P'. split.
  - intros a b X Hab HaX HbX HX.
    destruct (HP a b X Hab HaX HbX HX) as (d0 & Hd0 & Hd00 & HPd0).
    destruct (decide (d0 = dd)) as [->|Hne1].
    + destruct (decide (m < b)%nat) as [Hmb|Hmb].
      * destruct (decide (m = dd)) as [->|Hmdd].
        { exists dd. split_and!; [lia|lia|done|]. unfold P'.
          rewrite decide_True by done. congruence. }
        exists m. split_and!; [lia|lia|done|]. unfold P'.
        rewrite decide_False by done. by rewrite decide_True.
      * assert (b ≠ m) by congruence.
        destruct (inv_safe _ _ _ HI a b X) as (d & Hd & Hd0' & Hdr & Hdn);
          [lia|done..|].
        exists d. split_and!; [lia|lia|done|]. unfold P'.
        rewrite decide_False by (by intros ->).
        rewrite decide_False by (by intros ->).
        rewrite (Hag d) in Hdr by (done || lia). congruence.
    + destruct (decide (d0 = m)) as [->|Hne2].
      * assert (X = L) as -> by congruence.
        exists dd. split_and!; [| |done|].
        -- destruct (inv_last _ _ _ HI a L) as (j' & Hj' & ?); [lia|done..|].
           assert (j' = j) by congruence. lia.
        -- destruct (decide (b < k)%nat) as [Hbk|]; [|lia].
           destruct (inv_last _ _ _ HI b L) as (j' & Hj' & ?); [lia|done..|].
           assert (j' = j) by congruence. lia.
        -- unfold P'. by rewrite decide_True.
      * exists d0. split_and!; [lia|lia|done|]. unfold P'.
        by rewrite !decide_False.
  - intros x Hx Hx0 Hnin. simpl in *.
    assert (x ≠ k) by congruence.
    destruct (decide (x = dd)) as [->|Hne].
    + unfold P'. rewrite decide_True by done.
      apply list_lookup_insert_eq. by eapply lookup_lt_Some.
    + assert (x ∉ dry_days st) as Hnin0.
      { intros Hin. apply Hnin. by apply (elem_of_delete_sorted _ _ dd). }
      rewrite list_lookup_insert_ne by done. unfold P'.
      rewrite decide_False by done.
      rewrite decide_False by (by intros ->).
      apply Hag; [lia|done..].
Qed.

(** Every state the scan reaches agrees with some valid schedule, provided
    one exists at all. *)
Lemma scan_upto_exchange rains P0 :
  rescues rains P0 →
  ∀ k st, scan_upto rains k = Val (Next st) →
    ∃ P, rescues rains P ∧ agrees rains P k st.
Proof.
  intros HP0. induction k as [|k IH]; intros st Hk.
  - exists P0. split; [done|]. intros d Hd. lia.
  - apply scan_upto_S_Next in Hk as (st0 & Hk & Hb).
    destruct (IH st0 Hk) as (P & HP & Hag).
    destruct (scan_upto_Inv _ _ _ Hk) as [HI _].
    destruct (body_Val_lookup _ _ _ _ Hb) as [L HkL].
    destruct (body_cases rains k st0 L HI HkL)
      as [[-> E]|[(HL & Hnone & E)|[(HL & _ & E)
          |(HL & j & p & dd & Hj & Hdd & Hlt & Hmin & E)]]];
      rewrite E in Hb; simplify_eq.
    + exists P. split; [done|]. intros d Hd Hd0 Hnin. simpl in *.
      apply Hag; [|done|].
      * destruct (decide (d = k)) as [->|]; [|lia]. destruct Hnin.
        apply elem_of_app. right. by apply list_elem_of_singleton.
      * intros Hin. apply Hnin, elem_of_app. by left.
    + exists P. split; [done|]. intros d Hd Hd0 Hnin. simpl in *.
      apply Hag; [|done..]. assert (d ≠ k) by congruence. lia.
    + by eapply exchange_step.
Qed.

(** With a valid schedule in existence the scan is never stuck. *)
Lemma rescues_not_stuck rains P0 i st :
  rescues rains P0 → scan_upto rains i = Val (Next st) → ¬ stuck rains i st.
Proof.
  intros HP0 Hi (L & j & HiL & HL & Hj & Hnone).
  destruct (scan_upto_exchange rains P0 HP0 i st Hi) as (P & HP & Hag).
  destruct (rescuer_in_pool rains P i st L j Hi HP Hag HiL HL Hj)
    as (m & Hm & _ & _ & Hin).
  apply Hnone in Hin. lia.
Qed.

Lemma feasible_not_empty rains plan :
  rains ≠ [] → replay rains plan ∅ = true → avoidFlood rains ≠ Val [].
Proof.
  intros Hne Hrep%replay_true_iff%rescued_between_rescues.
  destruct (avoidFlood_cases rains)
    as [(_ & i & st & Hi & Hst)|(st & r & _ & _ & E & Hlen & _)].
  - by destruct (rescues_not_stuck rains _ i st Hrep Hi).
  - rewrite E. intros [= ->]. by destruct rains.
Qed.

End exchange.

(** ** Further properties of the planner *)

Section further_helpers.

Lemma boundary_is_count (a : list nat) x p :
  (p ≤ length a)%nat →
  (∀ q y, (q < p)%nat → a !! q = Some y → (y ≤ x)%nat) →
  (∀ q y, (p ≤ q)%nat → a !! q = Some y → (x < y)%nat) →
  length (filter (λ y, (y ≤ x)%nat) a) = p.
Proof.
  revert p. induction a as [|y a IH]; intros p Hp Hle Hgt; simpl in Hp.
  - rewrite filter_nil. simpl. lia.
  - destruct p as [|p].
    + rewrite filter_cons_False.
      * apply (IH 0%nat); [lia|intros; lia|].
        intros q z _ Hz. apply (Hgt (S q)); [lia|done].
      * specialize (Hgt 0%nat y (le_n _) eq_refl). lia.
    + rewrite filter_cons_True by (apply (Hle 0%nat); [lia|done]).
      simpl. f_equal. apply IH; [lia| |].
      * intros q z Hq Hz. apply (Hle (S q)); [lia|done].
      * intros q z Hq Hz. apply (Hgt (S q)); [lia|done].
Qed.

(** The pool holds the scanned dry days that repeated rains have not yet
    taken. *)
Lemma pool_count rains k st :
  scan_upto rains k = Val (Next st) →
  (length (dry_days st) + count_days (is_repeat rains) k
   = count_days (is_dry rains) k)%nat.
Proof.
  revert st. induction k as [|k IH]; intros st Hk.
  - by injection Hk as <-.
  - apply scan_upto_S_Next in Hk as (st0 & Hk & Hb).
    specialize (IH st0 Hk). destruct (scan_upto_Inv _ _ _ Hk) as [HI _].
    destruct (body_Val_lookup _ _ _ _ Hb) as [L HkL].
    cbn [count_days]. unfold is_dry at 2, is_repeat at 2. rewrite HkL.
    destruct (body_cases rains k st0 L HI HkL)
      as [[-> E]|[(HL & Hnone & E)|[(HL & _ & E)
          |(HL & j & p & dd & Hj & Hdd & Hlt & Hmin & E)]]];
      rewrite E in Hb; simplify_eq; simpl.
    + rewrite length_app. simpl. lia.
    + rewrite (bool_decide_eq_false_2 (Some L = Some 0))
        by (intros ?; simplify_eq).
      rewrite bool_decide_eq_false_2; [lia|].
      intros [_ (i & HiL & Hik)%elem_of_take].
      destruct (inv_last _ _ _ HI i L) as (j & Hj & _); [done..|congruence].
    + rewrite (bool_decide_eq_false_2 (Some L = Some 0))
        by (intros ?; simplify_eq).
      rewrite bool_decide_eq_true_2.
      * rewrite length_delete by eauto.
        apply lookup_lt_Some in Hdd. lia.
      * split; [done|]. destruct (inv_full _ _ _ HI L j Hj) as (? & ? & _).
        apply elem_of_take. eauto.
Qed.

(** On the first [length r] days the body does to a longer result list
    what it does to [r]. *)
Lemma rescue_longer L r e f p :
  (∀ d, d ∈ p → (d < length r)%nat) →
  rescue L (State (r ++ e) f p) =
    match rescue L (State r f p) with
    | Val (Next st) =>
        Val (Next (State (result st ++ e) (full_lakes st) (dry_days st)))
    | other => other
    end.
Proof.
  intros Hp. unfold rescue. simpl. destruct (Py.dict_mem f L); [|done].
  destruct (Py.dict_get f L) as [d| |]; simpl; [|done..]. unbind.
  destruct (Py.bisect_right p d) as [idx| |]; [|done..].
  case_decide; [done|]. unfold Py.getitem.
  destruct (p !! idx) as [dd|] eqn:Hdd; [|done].
  apply list_elem_of_lookup_2, Hp in Hdd. unfold Py.setitem.
  rewrite length_app, !decide_True by lia.
  destruct (Py.pop p idx) as [p'| |]; [|done..].
  destruct (Py.dict_del f L) as [f'| |]; [|done..].
  simpl. by rewrite insert_app_l.
Qed.

Lemma body_longer rains more k r e f p :
  (k < length rains)%nat → (∀ d, d ∈ p → (d < length r)%nat) →
  body (rains ++ more) k (State (r ++ e) f p) =
    match body rains k (State r f p) with
    | Val (Next st) =>
        Val (Next (State (result st ++ e) (full_lakes st) (dry_days st)))
    | other => other
    end.
Proof.
  intros Hk Hp. unfold body, Py.getitem.
  rewrite lookup_app_l by done.
  destruct (rains !! k) as [x|]; [|done]. unbind. case_decide; [done|].
  rewrite rescue_longer by done.
  destruct (rescue x (State r f p)) as [[st|?]| |]; done.
Qed.

(** The scan is online: its first [k] days on a longer schedule are its
    first [k] days on the prefix, with a longer result list. *)
Lemma scan_upto_longer rains more k :
  (k ≤ length rains)%nat →
  scan_upto (rains ++ more) k =
    match scan_upto rains k with
    | Val (Next st) =>
        Val (Next (State (result st ++ replicate (length more) (-1))
                         (full_lakes st) (dry_days st)))
    | other => other
    end.
Proof.
  induction k as [|k IH]; intros Hk.
  - unfold scan_upto, init. simpl.
    by rewrite length_app, replicate_add.
  - rewrite !scan_upto_S, IH by lia.
    destruct (scan_upto rains k) as [[st|?]| |] eqn:Hst; try done.
    unbind. destruct (scan_upto_Inv _ _ _ Hst) as [HI _].
    destruct st as [r f p]. simpl. apply body_longer; [lia|].
    intros d Hd. destruct (inv_pool _ _ _ HI d Hd) as (_ & _ & ?).
    simpl in *. by eapply lookup_lt_Some.
Qed.

End further_helpers.

(** X1.  For a non-empty rain schedule, [avoidFlood] returns the empty list
    exactly when no plan at all passes the replay: the greedy choice of the
    earliest usable dry day never loses a feasible schedule. *)
Theorem empty_result_iff_infeasible rains :
  rains ≠ [] →
  avoidFlood rains = Val [] ↔ ∀ plan, replay rains plan ∅ = false.
Proof.
  intros Hne. split.
  - intros E plan. destruct (replay rains plan ∅) eqn:Hrep; [|done].
    by destruct (feasible_not_empty rains plan Hne Hrep).
  - intros Hnone.
    destruct (avoidFlood_cases rains)
      as [[E _]|(st & r & _ & _ & E & Hlen & _)]; [done|].
    assert (r ≠ []) as Hr by (intros ->; by destruct rains).
    pose proof (avoidFlood_rescued_between rains r E Hr) as Hok.
    apply replay_true_iff in Hok. rewrite Hnone in Hok. done.
Qed.

Lemma empty_result_iff_infeasible_witness :
  avoidFlood [1;2;0;1;2] = Val [] ∧
  replay [1;2;0;1;2] [-1;-1;2;-1;-1] ∅ = false.
Proof.
  assert (avoidFlood [1;2;0;1;2] = Val []) as H by (vm_compute; reflexivity).
  split; [exact H|].
  assert ([1;2;0;1;2] ≠ []) as Hne by discriminate.
  exact (proj1 (empty_result_iff_infeasible [1;2;0;1;2] Hne) H
           [-1;-1;2;-1;-1]).
Defined.

(** X2.  Infeasibility is permanent: if [avoidFlood] returns the empty list
    on a non-empty schedule, it returns the empty list on every schedule
    that extends it. *)
Theorem infeasible_prefix_stays_infeasible rains more :
  rains ≠ [] → avoidFlood rains = Val [] →
  avoidFlood (rains ++ more) = Val [].
Proof.
  intros Hne E.
  destruct (avoidFlood_cases (rains ++ more))
    as [[E' _]|(st & r & _ & _ & E' & Hlen & _)]; [done|exfalso].
  assert (r ≠ []) as Hr.
  { intros ->. rewrite length_app in Hlen. destruct rains; simpl in *; [done|lia]. }
  pose proof (avoidFlood_rescued_between _ r E' Hr) as Hok.
  apply (feasible_not_empty rains r Hne); [|done].
  apply replay_true_iff. intros j i L Hji HjL HiL HL.
  destruct (Hok j i L) as (d & Hd & Hd0 & Hpd);
    [done|by apply lookup_app_l_Some..|done|].
  exists d. split_and!; [lia|lia| |done].
  rewrite lookup_app_l in Hd0; [done|].
  apply lookup_lt_Some in HiL. lia.
Qed.

Lemma infeasible_prefix_stays_infeasible_witness :
  avoidFlood [1;2;1] = Val [] ∧ avoidFlood ([1;2;1] ++ [0;0;2]) = Val [].
Proof.
  assert (avoidFlood [1;2;1] = Val []) as H by (vm_compute; reflexivity).
  split; [exact H|].
  apply (infeasible_prefix_stays_infeasible [1;2;1] [0;0;2]);
    [discriminate|exact H].
Defined.

(** X3.  In every state the scan reaches after [k] days, [full_lakes] maps
    a lake exactly to the last of the first [k] days on which it rained: a
    rescue deletes the entry and the same iteration writes it again, so the
    dictionary records every lake that has rained so far. *)
Theorem full_lakes_is_last_rain rains k st L j :
  scan_upto rains k = Val (Next st) →
  full_lakes st !! L = Some j ↔
    (j < k)%nat ∧ rains !! j = Some L ∧ L ≠ 0 ∧
    ∀ b, (j < b < k)%nat → rains !! b ≠ Some L.
Proof.
  intros Hk. destruct (scan_upto_Inv _ _ _ Hk) as [HI _]. split.
  - intros Hj. destruct (inv_full _ _ _ HI L j Hj) as (? & ? & ?).
    split_and!; [done..|]. intros b Hb HbL.
    destruct (inv_last _ _ _ HI b L) as (j' & Hj' & ?); [lia|done..|].
    assert (j' = j) by congruence. lia.
  - intros (Hjk & HjL & HL & Hlast).
    destruct (inv_last _ _ _ HI j L) as (j' & Hj' & Hle); [done..|].
    destruct (inv_full _ _ _ HI L j' Hj') as (? & HjL' & _).
    destruct (decide (j' = j)) as [->|]; [done|].
    destruct (Hlast j'); [lia|done].
Qed.

Lemma full_lakes_is_last_rain_witness :
  ∃ st, scan_upto [4;0;4;7] 3 = Val (Next st) ∧
        full_lakes st !! 4 = Some 2%nat.
Proof.
  eexists. split; [vm_compute; reflexivity|].
  match goal with
  | |- full_lakes ?st !! _ = _ =>
      apply (proj2 (full_lakes_is_last_rain [4;0;4;7] 3 st 4 2 eq_refl))
  end.
  split_and!; [lia|reflexivity|discriminate|]. intros b Hb. lia.
Defined.

(** X4.  On a strictly ascending pool the binary search of line 23 returns,
    within its fuel and without an index error, the number of pooled days
    that are not after [x]. *)
Theorem bisect_right_counts (a : list nat) x :
  StronglySorted lt a →
  Py.bisect_right a x = Val (length (filter (λ y, (y ≤ x)%nat) a)).
Proof.
  intros Hs. destruct (bisect_right_spec a x Hs) as (p & -> & Hp & Hle & Hgt).
  f_equal. symmetry. by apply boundary_is_count.
Qed.

Lemma bisect_right_counts_witness :
  Py.bisect_right [2;5;7;11]%nat 7 = Val 3%nat.
Proof.
  apply (bisect_right_counts [2;5;7;11]%nat 7).
  repeat constructor; lia.
Defined.

Section further_helpers2.

Lemma rescued_between_prefix rains more plan :
  rescued_between (rains ++ more) plan → rescued_between rains plan.
Proof.
  intros Hok j i L Hji HjL HiL HL.
  destruct (Hok j i L) as (d & Hd & Hd0 & Hpd);
    [done|by apply lookup_app_l_Some..|done|].
  exists d. split_and!; [lia|lia| |done].
  rewrite lookup_app_l in Hd0; [done|].
  apply lookup_lt_Some in HiL. lia.
Qed.

(** A dry day that leaves the pool was consumed; without a lake that rains
    twice nothing is consumed. *)
Lemma no_repeat_no_consumption rains i d :
  (∀ a b L, rains !! a = Some L → rains !! b = Some L → L ≠ 0 → a = b) →
  ¬ consumed_at rains i d.
Proof.
  intros Hnr Hc.
  destruct (consumed_at_job rains i d Hc) as (a & L & ? & HaL & HiL & HL & _).
  pose proof (Hnr a i L HaL HiL HL). lia.
Qed.

End further_helpers2.

(** X5.  When no lake rains twice, [avoidFlood] returns the schedule with
    [-1] on every rainy day and the placeholder [1] on every dry day; this
    covers the schedules without rain and without dry days. *)
Theorem no_repeat_trivial_plan rains :
  (∀ a b L, rains !! a = Some L → rains !! b = Some L → L ≠ 0 → a = b) →
  avoidFlood rains = Val (trivial_plan rains).
Proof.
  intros Hnr.
  destruct (avoidFlood_cases rains)
    as [(_ & i & st & Hi & L & d & HiL & HL & Hd & _)
       |(st & r & Hst & HI & E & Hlen & Hval)].
  - destruct (scan_upto_Inv _ _ _ Hi) as [HI _].
    destruct (inv_full _ _ _ HI L d Hd) as (? & HdL & _).
    pose proof (Hnr d i L HdL HiL HL). lia.
  - rewrite E. f_equal. apply list_eq. intros i. unfold trivial_plan.
    rewrite list_lookup_fmap.
    destruct (rains !! i) as [x|] eqn:Hix; simpl.
    + case_decide as Hx.
      * subst x. destruct (decide (i ∈ dry_days st)) as [|Hnin];
          [by apply Hval|].
        destruct (dry_day_history rains i _ st Hst) as [?|(_ & k & L & _ & Hc & _)];
          [by eapply lookup_lt_Some|done|done|].
        by destruct (no_repeat_no_consumption rains k i Hnr).
      * rewrite (proj2 (Hval i)).
        -- by apply (inv_rainy _ _ _ HI i x).
        -- intros Hin. destruct (inv_pool _ _ _ HI i Hin) as (_ & ? & _).
           congruence.
    + apply lookup_ge_None. apply lookup_ge_None in Hix. lia.
Qed.

Lemma no_repeat_trivial_plan_witness :
  avoidFlood [3;0;-2;0;5] = Val [-1;1;-1;1;-1].
Proof.
  apply (no_repeat_trivial_plan [3;0;-2;0;5]).
  intros a b L Ha Hb HL.
  destruct a as [|[|[|[|[|a]]]]]; simpl in Ha; try discriminate Ha;
    injection Ha as <-;
    destruct b as [|[|[|[|[|b]]]]]; simpl in Hb; try discriminate Hb;
    try reflexivity; try (injection Hb as Hb; discriminate Hb);
    exfalso; apply HL; reflexivity.
Defined.

(** X6.  Two rains on the same lake with no dry day strictly between them
    make [avoidFlood] return the empty list, whatever the rest of the
    schedule is. *)
Theorem adjacent_repeat_infeasible rains j i L :
  (j < i)%nat → rains !! j = Some L → rains !! i = Some L → L ≠ 0 →
  (∀ d, (j < d < i)%nat → rains !! d ≠ Some 0) →
  avoidFlood rains = Val [].
Proof.
  intros Hji HjL HiL HL Hnodry.
  destruct (avoidFlood_cases rains)
    as [[E _]|(st & r & _ & _ & E & Hlen & _)]; [done|exfalso].
  assert (r ≠ []) as Hr.
  { intros ->. apply lookup_lt_Some in HiL. simpl in Hlen. lia. }
  destruct (avoidFlood_rescued_between rains r E Hr j i L)
    as (d & Hd & Hd0 & _); [done..|].
  by destruct (Hnodry d).
Qed.

Lemma adjacent_repeat_infeasible_witness :
  avoidFlood [1;2;1;0;2;1] = Val [].
Proof.
  apply (adjacent_repeat_infeasible [1;2;1;0;2;1] 0 2 1);
    [lia|reflexivity|reflexivity|discriminate|].
  intros d Hd. assert (d = 1%nat) as -> by lia. discriminate.
Defined.

(** X7.  In every state the scan reaches after [k] days, the pool holds
    exactly as many days as there were dry days minus repeated rains among
    those [k] days: every repeated rain has taken one dry day, no more. *)
Theorem pool_size_law rains k st :
  scan_upto rains k = Val (Next st) →
  (length (dry_days st) + count_days (is_repeat rains) k
   = count_days (is_dry rains) k)%nat.
Proof. apply pool_count. Qed.

Lemma pool_size_law_witness :
  ∃ st, scan_upto [1;0;0;1;0] 5 = Val (Next st) ∧
        length (dry_days st) = 2%nat.
Proof.
  eexists. split; [vm_compute; reflexivity|].
  match goal with
  | |- length (dry_days ?st) = _ =>
      pose proof (pool_size_law [1;0;0;1;0] 5 st eq_refl) as H
  end.
  vm_compute in H. vm_compute. lia.
Defined.

(** X8.  If more rains fall on lakes that have rained before than there are
    dry days, [avoidFlood] returns the empty list. *)
Theorem more_repeats_than_dry_days rains :
  (count_days (is_dry rains) (length rains)
   < count_days (is_repeat rains) (length rains))%nat →
  avoidFlood rains = Val [].
Proof.
  intros Hlt.
  destruct (avoidFlood_cases rains)
    as [[E _]|(st & r & Hst & _)]; [done|].
  pose proof (pool_count rains _ st Hst). lia.
Qed.

Lemma more_repeats_than_dry_days_witness :
  avoidFlood [1;2;0;1;2] = Val [].
Proof.
  apply (more_repeats_than_dry_days [1;2;0;1;2]). vm_compute. lia.
Defined.

(** X9.  For every list of integers, negative lake ids included: in a
    non-empty returned schedule a day with a non-zero entry holds [-1], and
    a dry day holds a non-zero value that is the placeholder [1] or a lake
    that rained before that day and rains again after it, with no rain on
    it in between. *)
Theorem plan_entries_any_integers rains plan i x :
  avoidFlood rains = Val plan → plan ≠ [] → rains !! i = Some x →
  (x ≠ 0 → plan !! i = Some (-1)) ∧
  (x = 0 →
   ∃ v, plan !! i = Some v ∧ v ≠ 0 ∧
        (v = 1 ∨
         ∃ a b, (a < i < b)%nat ∧ rains !! a = Some v ∧ rains !! b = Some v ∧
                ∀ c, (a < c < b)%nat → rains !! c ≠ Some v)).
Proof.
  intros Hr Hne Hix. split.
  - intros Hx.
    destruct (avoidFlood_cases rains)
      as [[E _]|(st & r & _ & HI & E & _ & Hval)]; [congruence|].
    assert (r = plan) as -> by congruence.
    rewrite (proj2 (Hval i)).
    + by apply (inv_rainy _ _ _ HI i x).
    + intros Hin. destruct (inv_pool _ _ _ HI i Hin) as (_ & ? & _).
      congruence.
  - intros ->.
    destruct (dry_day_value rains plan i Hr Hne Hix)
      as [(k & L & Hc & HkL & HL & Hv)|[_ Hv]].
    + exists L. split_and!; [done..|]. right.
      destruct (consumed_at_job rains k i Hc)
        as (a & L' & ? & HaL & HkL' & _ & Hlast).
      assert (L' = L) as -> by congruence. by exists a, k.
    + exists 1. split_and!; [done|lia|by left].
Qed.

Lemma plan_entries_any_integers_witness :
  avoidFlood [-5;0;-5] = Val [-1;-5;-1] ∧
  ∃ v, [-1;-5;-1] !! 1%nat = Some v ∧ v ≠ 0 ∧
       (v = 1 ∨
        ∃ a b, (a < 1 < b)%nat ∧ [-5;0;-5] !! a = Some v ∧
               [-5;0;-5] !! b = Some v ∧
               ∀ c, (a < c < b)%nat → [-5;0;-5] !! c ≠ Some v).
Proof.
  assert (avoidFlood [-5;0;-5] = Val [-1;-5;-1]) as H
    by (vm_compute; reflexivity).
  split; [exact H|].
  apply (plan_entries_any_integers [-5;0;-5] [-1;-5;-1] 1 0 H);
    [discriminate|reflexivity|reflexivity].
Defined.

(** X10.  For non-negative rain schedules a non-empty returned schedule
    holds [-1] exactly on the rainy days, so the dry days can be read back
    from it. *)
Theorem minus_one_iff_rainy rains plan i x :
  Forall (λ y, 0 ≤ y) rains →
  avoidFlood rains = Val plan → plan ≠ [] → rains !! i = Some x →
  plan !! i = Some (-1) ↔ x ≠ 0.
Proof.
  intros Hpos Hr Hne Hix. split.
  - intros Hm ->.
    destruct (dry_day_value rains plan i Hr Hne Hix)
      as [(k & L & _ & HkL & HL & Hv)|[_ Hv]]; [|congruence].
    rewrite Forall_lookup in Hpos. specialize (Hpos k L HkL).
    assert (L = -1) by congruence. lia.
  - intros Hx.
    destruct (avoidFlood_cases rains)
      as [[E _]|(st & r & _ & HI & E & _ & Hval)]; [congruence|].
    assert (r = plan) as -> by congruence.
    rewrite (proj2 (Hval i)).
    + by apply (inv_rainy _ _ _ HI i x).
    + intros Hin. destruct (inv_pool _ _ _ HI i Hin) as (_ & ? & _).
      congruence.
Qed.

Lemma minus_one_iff_rainy_witness :
  avoidFlood [1;0;2;0;2] = Val [-1;1;-1;2;-1] ∧
  ([-1;1;-1;2;-1] !! 2%nat = Some (-1) ↔ 2 ≠ 0).
Proof.
  assert (avoidFlood [1;0;2;0;2] = Val [-1;1;-1;2;-1]) as H
    by (vm_compute; reflexivity).
  split; [exact H|].
  apply (minus_one_iff_rainy [1;0;2;0;2] [-1;1;-1;2;-1] 2 2);
    [|exact H|discriminate|reflexivity].
  repeat constructor; lia.
Defined.

(** X11.  The planner is online.  If the schedule [rains ++ more] has a
    non-empty plan, so has its non-empty prefix [rains], and on the days of
    [rains] the two plans are equal except where the shorter one holds the
    placeholder [1] on a dry day that later rain may claim. *)
Theorem plan_of_prefix rains more plan :
  rains ≠ [] → avoidFlood (rains ++ more) = Val plan → plan ≠ [] →
  ∃ plan', avoidFlood rains = Val plan' ∧ length plan' = length rains ∧
    ∀ d, (d < length rains)%nat →
      plan' !! d = plan !! d ∨ (rains !! d = Some 0 ∧ plan' !! d = Some 1).
Proof.
  intros Hne Hr Hplan.
  destruct (avoidFlood_cases (rains ++ more))
    as [[E _]|(stF & r & HstF & _ & E & _ & HvalF)]; [congruence|].
  assert (r = plan) as -> by congruence.
  destruct (scan_upto_earlier (rains ++ more) (length rains) _ stF HstF)
    as [st' Hst']; [rewrite length_app; lia|].
  pose proof Hst' as Hlong. rewrite scan_upto_longer in Hlong by done.
  destruct (avoidFlood_cases rains)
    as [[E' _]|(st & r' & Hst & HI & E' & Hlen & Hval)].
  { exfalso. apply (feasible_not_empty rains plan Hne); [|done].
    apply replay_true_iff, (rescued_between_prefix rains more).
    by apply avoidFlood_rescued_between. }
  rewrite Hst in Hlong. injection Hlong as <-.
  exists r'. split_and!; [done..|]. intros d Hd.
  destruct (decide (d ∈ dry_days st)) as [Hin|Hnin].
  - right. destruct (inv_pool _ _ _ HI d Hin) as (_ & ? & _).
    split; [done|by apply Hval].
  - left. rewrite (proj2 (Hval d)) by done.
    destruct (scan_upto_stable (rains ++ more) (length rains) _ _ stF d
                Hst' HstF) as [HninF Hsame];
      [rewrite length_app; lia|done|done|].
    rewrite (proj2 (HvalF d)) by done. rewrite Hsame. simpl.
    rewrite lookup_app_l; [done|]. by rewrite (inv_len _ _ _ HI).
Qed.

Lemma plan_of_prefix_witness :
  avoidFlood ([1;0;2;0] ++ [2;1]) = Val [-1;1;-1;2;-1;-1] ∧
  ∃ plan', avoidFlood [1;0;2;0] = Val plan' ∧
    length plan' = length [1;0;2;0] ∧
    ∀ d, (d < length [1;0;2;0])%nat →
      plan' !! d = [-1;1;-1;2;-1;-1] !! d
      ∨ ([1;0;2;0] !! d = Some 0 ∧ plan' !! d = Some 1).
Proof.
  assert (avoidFlood ([1;0;2;0] ++ [2;1]) = Val [-1;1;-1;2;-1;-1]) as H
    by (vm_compute; reflexivity).
  split; [exact H|].
  apply (plan_of_prefix [1;0;2;0] [2;1] [-1;1;-1;2;-1;-1]);
    [discriminate|exact H|discriminate].
Defined.

Section further_helpers3.

(** Sorted or not, the list is searched within the fuel and inside its
    bounds, and the position found is a local boundary. *)
Lemma bisect_loop_any fuel (a : list nat) x lo hi :
  (lo ≤ hi ≤ length a)%nat → (hi - lo ≤ fuel)%nat →
  (∀ y, (0 < lo)%nat → a !! pred lo = Some y → (y ≤ x)%nat) →
  (∀ y, a !! hi = Some y → (x < y)%nat) →
  ∃ p, Py.bisect_loop fuel a x lo hi = Val p ∧ (lo ≤ p ≤ hi)%nat ∧
       (∀ y, (0 < p)%nat → a !! pred p = Some y → (y ≤ x)%nat) ∧
       (∀ y, a !! p = Some y → (x < y)%nat).
Proof.
  revert lo hi.
  induction fuel as [|fuel IH]; intros lo hi Hb Hf Hlo Hhi;
    cbn [Py.bisect_loop]; cbv zeta.
  - case_decide; [lia|]. assert (hi = lo) as -> by lia.
    exists lo. split_and!; auto with lia.
  - case_decide as Hlt.
    2:{ assert (hi = lo) as -> by lia. exists lo. split_and!; auto with lia. }
    set (mid := ((lo + hi) / 2)%nat).
    assert (lo ≤ mid < hi)%nat as Hmid.
    { subst mid. split.
      - apply Nat.div_le_lower_bound; lia.
      - apply Nat.Div0.div_lt_upper_bound; lia. }
    destruct (lookup_lt_is_Some_2 a mid) as [am Ham]; [lia|].
    unfold Py.getitem. rewrite Ham. unbind. case_decide as Hx.
    + destruct (IH lo mid) as (p & -> & ? & ? & ?); try lia; auto.
      { intros y Hy. assert (y = am) by congruence. lia. }
      exists p. split_and!; auto with lia.
    + destruct (IH (S mid) hi) as (p & -> & ? & ? & ?); try lia; auto.
      { intros y _ Hy. simpl in Hy. assert (y = am) by congruence. lia. }
      exists p. split_and!; auto with lia.
Qed.

End further_helpers3.

(** X12.  On every list, sorted or not, the binary search of line 23
    returns a position within the list, never raises an index error and
    never exhausts its fuel; the element before the position, if any, is
    not above [x] and the element at the position, if any, is above [x]. *)
Theorem bisect_right_any_list (a : list nat) x :
  ∃ p, Py.bisect_right a x = Val p ∧ (p ≤ length a)%nat ∧
       (∀ y, (0 < p)%nat → a !! pred p = Some y → (y ≤ x)%nat) ∧
       (∀ y, a !! p = Some y → (x < y)%nat).
Proof.
  unfold Py.bisect_right.
  destruct (bisect_loop_any (length a) a x 0 (length a))
    as (p & ? & ? & ? & ?); auto with lia.
  - intros y Hy. apply lookup_lt_Some in Hy. lia.
  - exists p. split_and!; auto with lia.
Qed.


